(** * availability-calendar: the clear-and-mirror script, embedded in Rocq

    [script.py] talks to a calendar provider through three remote calls
    (list, delete, insert).  The script itself is embedded function by
    function over a small exception-and-state monad; the provider, which is
    not part of the repository, is a state threaded through that monad and
    parameterised by what the script cannot observe (its window filter, its
    ordering and its identifier supply). *)

From Stdlib Require Import String Ascii ZArith Lia.
From stdpp Require Import base option list gmap strings.

Set Warnings "-register-all".
Open Scope string_scope.
Open Scope list_scope.

(** ** Python values

    Events are JSON objects that the client library hands over as Python
    dictionaries, so a dictionary is a finite map from keys to values. *)

Inductive value :=
| VNone
| VStr (s : string)
| VBool (b : bool)
| VInt (n : Z)
| VList (l : list value)
| VDict (d : gmap string value).

Abbreviation Event := (gmap string value).

(** The exceptions the script can meet: [HttpError] is what a failed remote
    call raises, the others come from Python's own operations. *)
Inductive exn :=
| HttpError
| KeyError (key : string)
| AttributeError
| TypeError.

Inductive result (A : Type) :=
| Return (a : A)
| Raise (e : exn).
Arguments Return {A} a.
Arguments Raise {A} e.

Module Py.

(** [d[k]] *)
Definition subscript (d : Event) (k : string) : result value :=
  match d !! k with
  | Some v => Return v
  | None => Raise (KeyError k)
  end.

(** [v.get(k, dflt)]; only dictionaries have a [get] attribute. *)
Definition get (v : value) (k : string) (dflt : value) : result value :=
  match v with
  | VDict d => Return (default dflt (d !! k))
  | _ => Raise AttributeError
  end.

(** [a <= b] and [a >= b] where one side is known to be a [str]: strings
    compare lexicographically, anything else against a string is a
    [TypeError]. *)
Definition le (a b : value) : result bool :=
  match a, b with
  | VStr x, VStr y => Return (String.leb x y)
  | _, _ => Raise TypeError
  end.

Definition ge (a b : value) : result bool :=
  match a, b with
  | VStr x, VStr y => Return (String.leb y x)
  | _, _ => Raise TypeError
  end.

(** [v != s] against a string literal: equal only to that very string. *)
Definition ne_str (v : value) (s : string) : bool :=
  match v with
  | VStr t => negb (String.eqb t s)
  | _ => true
  end.

End Py.

(** [event[k].get("dateTime", event[k].get("date"))], the expression both
    sweeps use for [k = "start"] and [k = "end"]. *)
Definition dateTime_or_date (event : Event) (k : string) : result value :=
  match Py.subscript event k with
  | Raise e => Raise e
  | Return field =>
      match Py.get field "date" VNone with
      | Raise e => Raise e
      | Return fallback => Py.get field "dateTime" fallback
      end
  end.

(** The pair of inputs a sweep extracts from an event, when both exist. *)
Definition interval (event : Event) : option (value * value) :=
  match dateTime_or_date event "start", dateTime_or_date event "end" with
  | Return a, Return b => Some (a, b)
  | _, _ => None
  end.

(** The times of an event, read off its raw fields in the words of the
    data model: the start and the end are each a precise timestamp
    ([dateTime]) or, when there is none, an all-day [date]; [VNone] where
    neither is there. *)
Definition raw (e : Event) (k f : string) : option value :=
  match e !! k with
  | Some (VDict d) => d !! f
  | _ => None
  end.

Definition time_of (e : Event) (k : string) : value :=
  match raw e k "dateTime" with
  | Some v => v
  | None => default VNone (raw e k "date")
  end.

Definition times (e : Event) : value * value :=
  (time_of e "start", time_of e "end").

(** The two [dateTime] values an event carries, whatever else it holds. *)
Definition carried (e : Event) : value * value :=
  (default VNone (raw e "start" "dateTime"),
   default VNone (raw e "end" "dateTime")).

(** [event.get("transparency", default) != "transparent"], the default
    being the empty string. *)
Definition busy (event : Event) : bool :=
  Py.ne_str (default (VStr EmptyString) (event !! "transparency"))
    "transparent".

(** The test of [delete_overlapping_events], with Python's short-circuit
    [and]: the second comparison is only evaluated when the first holds. *)
Definition overlap_test (event_start event_end : value) (start end_ : string)
  : result bool :=
  match Py.le event_start (VStr end_) with
  | Raise e => Raise e
  | Return false => Return false
  | Return true => Py.ge event_end (VStr start)
  end.

(** ** The provider

    The calendar service is not part of the repository; the script only
    sees it through [service.events().list/delete/insert(...).execute()].
    It is modelled by a remote call, the provider's answer and the
    provider's state.  The state keeps, besides the calendars, the script of
    outages still to come (one flag per call, [true] meaning that the call
    is refused) and the calls attempted so far with their outcome. *)

Inductive Call :=
| EventsList (calendarId : string) (timeMin timeMax : option string)
| EventsDelete (calendarId : string) (eventId : value)
| EventsInsert (calendarId : string) (body : Event).

Record Response := { items : option (list Event) }.

(** [service.events().delete(calendarId=..., eventId=...)], before
    [.execute()]: the client library drops a keyword argument whose value
    is [None] and then misses the required [eventId], so it raises
    [TypeError] while building the request and nothing is sent.  Any other
    value makes a request. *)
Definition events_delete (calendarId : string) (eventId : value)
  : result Call :=
  match eventId with
  | VNone => Raise TypeError
  | _ => Return (EventsDelete calendarId eventId)
  end.

Record Service := {
  calendars : gmap string (list Event);
  outages : list bool;
  trace : list (Call * bool)
}.

Definition has_id (i : string) (e : Event) : bool :=
  match e !! "id" with
  | Some (VStr j) => String.eqb i j
  | _ => false
  end.

Definition M (A : Type) : Type := Service → result A * Service.

Definition ret {A} (a : A) : M A := λ s, (Return a, s).

Definition bind {A B} (m : M A) (k : A → M B) : M B := λ s,
  match m s with
  | (Return a, s') => k a s'
  | (Raise e, s') => (Raise e, s')
  end.

Definition lift {A} (r : result A) : M A := λ s, (r, s).

Notation "x <- m ;; k" := (bind m (λ x, k))
  (at level 20, m at level 99, k at level 200, only parsing).
Notation "m ;; k" := (bind m (λ _, k))
  (at level 100, k at level 200, only parsing).

(** A Python [for] loop whose body may raise: the first exception ends it. *)
Fixpoint for_each {A} (l : list A) (body : A → M unit) : M unit :=
  match l with
  | [] => ret tt
  | x :: l' => body x ;; for_each l' body
  end.

(** [tqdm] wraps an iterable in a progress bar and yields its elements. *)
Definition tqdm {A} (iterable : list A) (desc : string) : list A := iterable.

(** ** A reference provider

    A concrete provider to run the script against: it reads RFC 3339
    timestamps (and plain dates, taken at midnight UTC) as instants, lists
    the events that end after [timeMin] and start before [timeMax], orders
    them by start instant, and names a new event with a string longer than
    every identifier already in the calendar. *)

Module Reference.

Definition digit (c : ascii) : option Z :=
  let n := Z.of_nat (nat_of_ascii c) in
  if (48 <=? n)%Z && (n <=? 57)%Z then Some (n - 48)%Z else None.

(** Reads exactly [k] digits. *)
Fixpoint digits (k : nat) (acc : Z) (s : string) : option (Z * string) :=
  match k with
  | O => Some (acc, s)
  | S k' =>
      match s with
      | String c s' =>
          match digit c with
          | Some d => digits k' (10 * acc + d)%Z s'
          | None => None
          end
      | EmptyString => None
      end
  end.

Definition expect (c : ascii) (s : string) : option string :=
  match s with
  | String c' s' => if Ascii.eqb c c' then Some s' else None
  | EmptyString => None
  end.

Fixpoint skip_digits (s : string) : string :=
  match s with
  | String c s' =>
      match digit c with
      | Some _ => skip_digits s'
      | None => s
      end
  | EmptyString => s
  end.

(** Days since 1970-01-01 of a date of the proleptic Gregorian calendar. *)
Definition days_from_civil (y m d : Z) : Z :=
  let y := (if m <=? 2 then y - 1 else y)%Z in
  let era := (y / 400)%Z in
  let yoe := (y - era * 400)%Z in
  let mp := (if 2 <? m then m - 3 else m + 9)%Z in
  let doy := ((153 * mp + 2) / 5 + d - 1)%Z in
  let doe := (yoe * 365 + yoe / 4 - yoe / 100 + doy)%Z in
  (era * 146097 + doe - 719468)%Z.

(** The offset suffix, in seconds east of UTC. *)
Definition offset (s : string) : option Z :=
  match s with
  | EmptyString => Some 0%Z
  | String c s' =>
      if Ascii.eqb c "Z" then
        match s' with EmptyString => Some 0%Z | _ => None end
      else
        let sign :=
          if Ascii.eqb c "+" then Some 1%Z
          else if Ascii.eqb c "-" then Some (-1)%Z else None in
        sg ← sign;
        '(h, s1) ← digits 2 0 s';
        s2 ← expect ":" s1;
        '(m, s3) ← digits 2 0 s2;
        match s3 with
        | EmptyString => Some (sg * (h * 3600 + m * 60))%Z
        | _ => None
        end
  end.

(** Seconds since the epoch; fractions of a second are dropped. *)
Definition instant (s : string) : option Z :=
  '(y, s1) ← digits 4 0 s;
  s2 ← expect "-" s1;
  '(m, s3) ← digits 2 0 s2;
  s4 ← expect "-" s3;
  '(d, s5) ← digits 2 0 s4;
  let day := (days_from_civil y m d * 86400)%Z in
  match s5 with
  | EmptyString => Some day
  | _ =>
      s6 ← expect "T" s5;
      '(hh, s7) ← digits 2 0 s6;
      s8 ← expect ":" s7;
      '(mi, s9) ← digits 2 0 s8;
      s10 ← expect ":" s9;
      '(ss, s11) ← digits 2 0 s10;
      let s12 :=
        match expect "." s11 with
        | Some f => skip_digits f
        | None => s11
        end in
      off ← offset s12;
      Some (day + hh * 3600 + mi * 60 + ss - off)%Z
  end.

Definition instant_of (v : value) : option Z :=
  match v with
  | VStr s => instant s
  | _ => None
  end.

Definition starts (e : Event) : option Z := instant_of (time_of e "start").

Definition ends (e : Event) : option Z := instant_of (time_of e "end").

Definition in_window (time_min time_max : option string) (e : Event) : bool :=
  match starts e, ends e with
  | Some a, Some b =>
      match time_min with
      | Some t => match instant t with
                  | Some lo => (lo <? b)%Z
                  | None => false
                  end
      | None => true
      end
      &&
      match time_max with
      | Some t => match instant t with
                  | Some hi => (a <? hi)%Z
                  | None => false
                  end
      | None => true
      end
  | _, _ => false
  end.

(** A provider that also lists the events whose times it cannot read. *)
Definition lenient (time_min time_max : option string) (e : Event) : bool :=
  match starts e, ends e with
  | Some _, Some _ => in_window time_min time_max e
  | _, _ => true
  end.

Definition earlier (e1 e2 : Event) : bool :=
  match starts e1, starts e2 with
  | Some a, Some b => (a <=? b)%Z
  | _, _ => true
  end.

Fixpoint place (e : Event) (l : list Event) : list Event :=
  match l with
  | [] => [e]
  | x :: l' => if earlier e x then e :: l else x :: place e l'
  end.

Definition by_start (l : list Event) : list Event := foldr place [] l.

(** A provider that answers a list request with one page of at most [n]
    events, the earliest ones; the script never asks for a further page. *)
Definition one_page (n : nat) (l : list Event) : list Event :=
  take n (by_start l).

Definition id_of (e : Event) : string :=
  match e !! "id" with
  | Some (VStr j) => j
  | _ => EmptyString
  end.

Fixpoint tally (n : nat) : string :=
  match n with
  | O => EmptyString
  | S n' => String "i" (tally n')
  end.

Definition new_id (hist : list (Call * bool)) (l : list Event) : string :=
  String "e" (foldr (λ e acc, id_of e +:+ acc) (tally (length hist)) l).

End Reference.

(** ** Sample calendars

    The event of the [get_all_events] docstring, a second one marked free,
    an all-day one, and a mirror calendar holding a placeholder left by an
    earlier run. *)

Module Sample.

Definition timed (i summary start end_ zone : string) : Event :=
  {[ "id" := VStr i;
     "summary" := VStr summary;
     "start" := VDict {[ "dateTime" := VStr start; "timeZone" := VStr zone ]};
     "end" := VDict {[ "dateTime" := VStr end_; "timeZone" := VStr zone ]} ]}.

Definition meeting : Event :=
  timed "m1" "Scaling Research Group Meeting"
    "2024-09-17T16:00:00-07:00" "2024-09-17T17:00:00-07:00"
    "America/Los_Angeles".

Definition lunch : Event :=
  <["transparency" := VStr "transparent"]>
    (timed "l1" "Lunch" "2024-09-17T12:00:00-07:00"
       "2024-09-17T13:00:00-07:00" "America/Los_Angeles").

Definition holiday : Event :=
  {[ "id" := VStr "h1";
     "summary" := VStr "Holiday";
     "start" := VDict {[ "date" := VStr "2024-09-18" ]};
     "end" := VDict {[ "date" := VStr "2024-09-19" ]} ]}.

Definition stale : Event :=
  timed "b0" "Busy" "2024-09-17T10:00:00-07:00" "2024-09-17T11:00:00-07:00"
    "UTC".

(** An entry somebody typed into the availability calendar by hand. *)
Definition dentist : Event :=
  timed "d1" "Dentist" "2024-09-18T09:00:00-07:00"
    "2024-09-18T10:00:00-07:00" "America/Los_Angeles".

(** A second meeting at the very time of the first, and one on Friday. *)
Definition twin : Event :=
  timed "m2" "Reading Group"
    "2024-09-17T16:00:00-07:00" "2024-09-17T17:00:00-07:00"
    "America/Los_Angeles".

Definition friday : Event :=
  timed "f1" "Seminar"
    "2024-09-20T09:00:00-07:00" "2024-09-20T10:00:00-07:00"
    "America/Los_Angeles".

(** A mirror entry whose identifier is [None]. *)
Definition unnamed : Event :=
  <["id" := VNone]>
    (timed "n0" "Busy" "2024-09-19T09:00:00-07:00" "2024-09-19T10:00:00-07:00"
       "UTC").

(** A placeholder a week after the window has closed. *)
Definition later : Event :=
  timed "b9" "Busy" "2024-10-01T10:00:00-07:00" "2024-10-01T11:00:00-07:00"
    "UTC".

(** Malformed events: a mirror entry without identifier, a busy source
    event whose start and end carry no time at all, one without a start,
    and a free one without a start. *)
Definition anonymous : Event :=
  {[ "summary" := VStr "Busy";
     "start" := VDict {[ "dateTime" := VStr "2024-09-19T09:00:00-07:00" ]};
     "end" := VDict {[ "dateTime" := VStr "2024-09-19T10:00:00-07:00" ]} ]}.

Definition untimed : Event :=
  {[ "id" := VStr "u1";
     "summary" := VStr "Someday";
     "start" := VDict ∅;
     "end" := VDict ∅ ]}.

Definition headless : Event :=
  {[ "id" := VStr "x1";
     "summary" := VStr "Broken";
     "end" := VDict {[ "dateTime" := VStr "2024-09-19T10:00:00-07:00" ]} ]}.

Definition headless_free : Event :=
  <["transparency" := VStr "transparent"]> headless.

Definition mirror_id : string := "availability@group.calendar.google.com".

Definition now : string := "2024-09-17T16:30:00.000000Z".
Definition end_time : string := "2024-09-24T16:30:00.000000Z".

Definition service (source mirror : list Event) (o : list bool) : Service :=
  {| calendars := {[ "primary" := source; mirror_id := mirror ]};
     outages := o;
     trace := [] |}.

End Sample.

(** ** The script *)

Section Script.

(** [config.AVAILABILITY_CALENDAR_ID], imported from a file that is not
    part of the sources. *)
Variable AVAILABILITY_CALENDAR_ID : string.

(** What the provider decides on its side of a list request: which events
    lie between [timeMin] and [timeMax], and their order under
    [singleEvents=True, orderBy="startTime"]; and the identifier it gives
    to an inserted event. *)
Variable in_window : option string → option string → Event → bool.
Variable by_start : list Event → list Event.
Variable new_id : list (Call * bool) → list Event → string.

(** What one remote call does to the calendars when the provider accepts
    it, and [None] when the provider refuses it: an unknown calendar, or a
    delete that names no event of the calendar.  The provider hands out
    string identifiers and knows an event by that string only, so a delete
    whose [eventId] is any other value names no event.  A list request
    returns the events of the window in the provider's order; a delete
    removes the event carrying the identifier; an insert stores the body
    under a new identifier.  [hist] is the log of earlier calls, which that
    identifier may depend on. *)
Definition provider (hist : list (Call * bool)) (c : Call)
    (cals : gmap string (list Event))
  : option (gmap string (list Event) * Response) :=
  match c with
  | EventsList cid tmin tmax =>
      match cals !! cid with
      | Some evs =>
          Some (cals,
                {| items := Some (by_start
                                    (filter (λ e, in_window tmin tmax e) evs)) |})
      | None => None
      end
  | EventsDelete cid (VStr i) =>
      match cals !! cid with
      | Some evs =>
          if existsb (has_id i) evs
          then Some (<[cid := filter (λ e, negb (has_id i e)) evs]> cals,
                     {| items := None |})
          else None
      | None => None
      end
  | EventsDelete _ _ => None
  | EventsInsert cid body =>
      match cals !! cid with
      | Some evs =>
          Some (<[cid := evs ++ [<["id" := VStr (new_id hist evs)]> body]]> cals,
                {| items := None |})
      | None => None
      end
  end.

(** [request.execute()]: the call is logged with its outcome; it raises
    [HttpError] when an outage is scheduled for it or the provider refuses
    it, and then leaves the calendars as they were. *)
Definition execute (c : Call) : M Response := λ s,
  let refused :=
    (Raise HttpError,
     {| calendars := calendars s;
        outages := tail (outages s);
        trace := trace s ++ [(c, false)] |}) in
  match outages s with
  | true :: _ => refused
  | _ =>
      match provider (trace s) c (calendars s) with
      | Some (cals, r) =>
          (Return r,
           {| calendars := cals;
              outages := tail (outages s);
              trace := trace s ++ [(c, true)] |})
      | None => refused
      end
  end.

Definition get_all_events (calendar_id : string)
    (time_min time_max : option string) : M (list Event) :=
  events_result <- execute (EventsList calendar_id time_min time_max) ;;
  ret (default [] (items events_result)).

Definition delete_overlapping_events (calendar_id start end_ : string)
  : M value :=
  availability_events <-
    get_all_events calendar_id (Some start) (Some end_) ;;
  for_each availability_events (λ event,
    event_start <- lift (dateTime_or_date event "start") ;;
    event_end <- lift (dateTime_or_date event "end") ;;
    overlapping <- lift (overlap_test event_start event_end start end_) ;;
    if (overlapping : bool) then
      event_id <- lift (Py.subscript event "id") ;;
      request <- lift (events_delete calendar_id event_id) ;;
      execute request ;;
      ret tt
    else ret tt) ;;
  ret VNone.

(** The dictionary [create_busy_event] builds from its two arguments. *)
Definition busy_event (start end_ : value) : Event :=
  {[ "summary" := VStr "Busy";
     "start" := VDict {[ "dateTime" := start; "timeZone" := VStr "UTC" ]};
     "end" := VDict {[ "dateTime" := end_; "timeZone" := VStr "UTC" ]} ]}.

Definition create_busy_event (start end_ : value) : M value :=
  let event := busy_event start end_ in
  execute (EventsInsert AVAILABILITY_CALENDAR_ID event) ;;
  ret VNone.

Definition delete_all_availability_events (time_min time_max : string)
  : M value :=
  availability_events <-
    get_all_events AVAILABILITY_CALENDAR_ID (Some time_min) (Some time_max) ;;
  for_each (tqdm availability_events "Deleting Availability Calendar Events")
    (λ event,
      event_id <- lift (Py.subscript event "id") ;;
      request <- lift (events_delete AVAILABILITY_CALENDAR_ID event_id) ;;
      execute request ;;
      ret tt) ;;
  ret VNone.

Definition sync_availability (time_min time_max : string) : M value :=
  primary_events <-
    get_all_events "primary" (Some time_min) (Some time_max) ;;
  for_each (tqdm primary_events "Creating Availability Calendar Events")
    (λ event,
      if busy event then
        start <- lift (dateTime_or_date event "start") ;;
        end_ <- lift (dateTime_or_date event "end") ;;
        create_busy_event start end_ ;;
        ret tt
      else ret tt) ;;
  ret VNone.

(** The entry point, after authentication: [now] and [end_time] are the
    two timestamps it reads off the clock. *)
Definition main (now end_time : string) : M value :=
  delete_all_availability_events now end_time ;;
  sync_availability now end_time ;;
  ret VNone.

(** *** Vocabulary of the statements *)

(** The input a sweep reads off an event; [VNone] stands in where the
    expression raises, which a completed sweep rules out. *)
Definition effective (event : Event) (k : string) : value :=
  match dateTime_or_date event k with
  | Return v => v
  | Raise _ => VNone
  end.

(** The body [sync_availability] sends for a source event. *)
Definition placeholder (event : Event) : Event :=
  busy_event (effective event "start") (effective event "end").

(** The [eventId] a sweep sends for a fetched event. *)
Definition ident (event : Event) : value := default VNone (event !! "id").

Definition shares_id (f e : Event) : bool :=
  match f !! "id" with
  | Some (VStr i) => has_id i e
  | _ => false
  end.

(** What is left of a calendar once every event that carries the
    identifier of a fetched one has been deleted. *)
Definition survivors (fetched cal : list Event) : list Event :=
  filter (λ e, forallb (λ f, negb (shares_id f e)) fetched) cal.

(** What a list request over a window shows of a calendar. *)
Definition view (time_min time_max : string) (cal : list Event)
  : list Event :=
  by_start (filter (λ e, in_window (Some time_min) (Some time_max) e) cal).

(** The events the provider stores for a run of accepted inserts. *)
Fixpoint stamp (hist : list (Call * bool)) (cal bodies : list Event)
  : list Event :=
  match bodies with
  | [] => []
  | b :: bs =>
      let e := <["id" := VStr (new_id hist cal)]> b in
      e :: stamp (hist ++ [(EventsInsert AVAILABILITY_CALENDAR_ID b, true)])
             (cal ++ [e]) bs
  end.

(** The calendars obtained by applying, in order, the accepted calls of a
    stretch of the log and skipping the refused ones. *)
Fixpoint replay (hist new : list (Call * bool))
    (cals : gmap string (list Event)) : gmap string (list Event) :=
  match new with
  | [] => cals
  | (c, ok) :: rest =>
      replay (hist ++ [(c, ok)]) rest
        (if ok then
           match provider hist c cals with
           | Some (cals', _) => cals'
           | None => cals
           end
         else cals)
  end.

Definition accepted (new : list (Call * bool)) : Prop :=
  Forall (λ cb, cb.2 = true) new.

(** Either every call of the stretch was accepted and the result is not a
    provider error, or the stretch ends with its only refused call and the
    result is that error. *)
Definition orderly {A} (r : result A) (new : list (Call * bool)) : Prop :=
  (accepted new ∧ r ≠ Raise HttpError) ∨
  (∃ pre c, new = pre ++ [(c, false)] ∧ accepted pre ∧ r = Raise HttpError).

(** A computation that only issues calls satisfying [P], stops at the
    first refused one, and leaves the calendars as its accepted calls
    made them. *)
Definition obeys {A} (P : Call → Prop) (m : M A) : Prop :=
  ∀ s r s', m s = (r, s') →
    ∃ new, trace s' = trace s ++ new
           ∧ Forall (λ cb, P cb.1) new
           ∧ orderly r new
           ∧ outages s' = drop (length new) (outages s)
           ∧ calendars s' = replay (trace s) new (calendars s).

(** The stretch of the log that a run from [s] to [s'] has added. *)
Definition issued (s s' : Service) : list (Call * bool) :=
  drop (length (trace s)) (trace s').

(** How many deletes, and how many inserts, of a stretch were accepted. *)
Definition deleted (cb : Call * bool) : bool :=
  match cb.1 with
  | EventsDelete _ _ => cb.2
  | _ => false
  end.

Definition inserted (cb : Call * bool) : bool :=
  match cb.1 with
  | EventsInsert _ _ => cb.2
  | _ => false
  end.

Definition deletions (t : list (Call * bool)) : nat :=
  length (filter (λ cb, deleted cb) t).

Definition insertions (t : list (Call * bool)) : nat :=
  length (filter (λ cb, inserted cb) t).

(** An event without the identifier the provider gave it. *)
Definition without_id (e : Event) : Event := delete "id" e.

(** No outage is scheduled. *)
Definition quiet (s : Service) : Prop := Forall (λ b, b = false) (outages s).

(** The calls a function may issue. *)
Definition list_on (cid : string) (c : Call) : Prop :=
  ∃ tmin tmax, c = EventsList cid tmin tmax.

Definition delete_on (cid : string) (c : Call) : Prop :=
  ∃ i, c = EventsDelete cid i.

Definition insert_busy (c : Call) : Prop :=
  ∃ a b, c = EventsInsert AVAILABILITY_CALENDAR_ID (busy_event a b).

(** [c] is the insert that the create sweep issues for a busy event of
    [l] whose two inputs could be read. *)
Definition mirrors (l : list Event) (c : Call) : Prop :=
  ∃ e, e ∈ l ∧ busy e = true
       ∧ dateTime_or_date e "start" = Return (effective e "start")
       ∧ dateTime_or_date e "end" = Return (effective e "end")
       ∧ c = EventsInsert AVAILABILITY_CALENDAR_ID (placeholder e).

(** The overlap test as a yes-or-no answer on a fetched event; a raised
    exception counts as no. *)
Definition overlapping (start end_ : string) (event : Event) : bool :=
  match overlap_test (effective event "start") (effective event "end")
          start end_ with
  | Return b => b
  | Raise _ => false
  end.

(** A computation whose exceptions all satisfy [E]. *)
Definition raises_only {A} (E : exn → Prop) (m : M A) : Prop :=
  ∀ s e s', m s = (Raise e, s') → E e.

(** The stored form of a placeholder: the dictionary of
    [create_busy_event] under some identifier. *)
Definition stored_busy (e : Event) : Prop :=
  ∃ a b i, e = <["id" := VStr i]> (busy_event a b).

(** ** Results *)

(** *** The monad *)

Lemma bind_inv {A B} (m : M A) (k : A → M B) s r s' :
  bind m k s = (r, s') →
  (∃ a s1, m s = (Return a, s1) ∧ k a s1 = (r, s'))
  ∨ (∃ e, m s = (Raise e, s') ∧ r = Raise e).
Proof.
  unfold bind. destruct (m s) as [[a|e] s1]; intros H.
  - left. eauto.
  - right. inversion H; subst. eauto.
Qed.

Lemma replay_app hist n1 n2 cals :
  replay hist (n1 ++ n2) cals = replay (hist ++ n1) n2 (replay hist n1 cals).
Proof.
  revert hist cals. induction n1 as [|[c ok] n1 IH]; intros hist cals; simpl.
  - by rewrite app_nil_r.
  - rewrite IH. by rewrite <- app_assoc.
Qed.

Lemma orderly_app {A B} (a : A) (r : result B) n1 n2 :
  orderly (Return a) n1 → orderly r n2 → orderly r (n1 ++ n2).
Proof.
  intros [[H1 _]|(pre & c & _ & _ & ?)] H2; [|done].
  destruct H2 as [[H2 Hr]|(pre & c & -> & Hpre & ->)].
  - left. split; [by apply Forall_app|done].
  - right. exists (n1 ++ pre), c. rewrite app_assoc.
    split; [done|]. split; [by apply Forall_app|done].
Qed.

Lemma obeys_ret {A} P (a : A) : obeys P (ret a).
Proof.
  intros s r s' H. inversion H; subst. exists [].
  rewrite app_nil_r. repeat split; try done.
  left. split; [constructor|done].
Qed.

Lemma obeys_lift {A} P (x : result A) :
  x ≠ Raise HttpError → obeys P (lift x).
Proof.
  intros Hx s r s' H. inversion H; subst. exists [].
  rewrite app_nil_r. repeat split; try done.
  left. split; [constructor|done].
Qed.

Lemma obeys_bind {A B} P (m : M A) (k : A → M B) :
  obeys P m → (∀ a, obeys P (k a)) → obeys P (bind m k).
Proof.
  intros Hm Hk s r s' H.
  apply bind_inv in H as [(a & s1 & H1 & H2)|(e & H1 & ->)].
  - apply Hm in H1 as (n1 & Ht1 & HP1 & Ho1 & Hout1 & Hc1).
    apply Hk in H2 as (n2 & Ht2 & HP2 & Ho2 & Hout2 & Hc2).
    exists (n1 ++ n2). rewrite Ht2, Ht1, <- app_assoc.
    split; [done|]. split; [by apply Forall_app|].
    split; [by eapply orderly_app|]. split.
    + rewrite Hout2, Hout1, drop_drop, length_app. done.
    + rewrite Hc2, Ht1, Hc1. by rewrite replay_app.
  - apply Hm in H1 as (n1 & Ht1 & HP1 & Ho1 & Hout1 & Hc1).
    exists n1. repeat split; try done.
    destruct Ho1 as [[Ha Hne]|(pre & c & ? & ? & He)].
    + left. split; [done|]. intros [= ->]. by apply Hne.
    + right. exists pre, c. repeat split; try done. by inversion He.
Qed.

Lemma obeys_for_each {A} P (l : list A) (body : A → M unit) :
  (∀ x, x ∈ l → obeys P (body x)) → obeys P (for_each l body).
Proof.
  induction l as [|x l IH]; intros Hbody; simpl.
  - apply obeys_ret.
  - apply obeys_bind.
    + apply Hbody. by left.
    + intros _. apply IH. intros y Hy. apply Hbody. by right.
Qed.

Lemma obeys_weaken {A} (P Q : Call → Prop) (m : M A) :
  (∀ c, P c → Q c) → obeys P m → obeys Q m.
Proof.
  intros HPQ Hm s r s' H.
  apply Hm in H as (new & ? & HP & ? & ? & ?). exists new.
  repeat split; try done. eapply Forall_impl; [exact HP|]. naive_solver.
Qed.

Lemma execute_inv c s r s' :
  execute c s = (r, s') →
  outages s' = tail (outages s) ∧
  ((∃ cals resp,
      provider (trace s) c (calendars s) = Some (cals, resp)
      ∧ head (outages s) ≠ Some true
      ∧ r = Return resp ∧ calendars s' = cals
      ∧ trace s' = trace s ++ [(c, true)])
   ∨ ((head (outages s) = Some true
       ∨ provider (trace s) c (calendars s) = None)
      ∧ r = Raise HttpError ∧ calendars s' = calendars s
      ∧ trace s' = trace s ++ [(c, false)])).
Proof.
  unfold execute.
  destruct (outages s) as [|[|] o];
    destruct (provider (trace s) c (calendars s)) as [[cals resp]|];
    intros [= <- <-]; simpl; naive_solver.
Qed.

Lemma obeys_execute (P : Call → Prop) c : P c → obeys P (execute c).
Proof.
  intros Hc s r s' H.
  apply execute_inv in H
    as [Ho [(cals & resp & Hp & _ & -> & Hcal & Ht)|(_ & -> & Hcal & Ht)]].
  - exists [(c, true)]. split; [done|]. split; [by repeat constructor|].
    split; [left; split; [by repeat constructor|done]|].
    split; [by destruct (outages s)|]. simpl. by rewrite Hp.
  - exists [(c, false)]. split; [done|]. split; [by repeat constructor|].
    split; [right; exists [], c; split; [done|]; split; [constructor|done]|].
    split; [by destruct (outages s)|done].
Qed.

Lemma obeys_bind_lift {A B} P (x : result A) (k : A → M B) :
  x ≠ Raise HttpError →
  (∀ a, x = Return a → obeys P (k a)) →
  obeys P (bind (lift x) k).
Proof.
  intros Hx Hk. destruct x as [a|e].
  - intros s r s' H. by apply (Hk a eq_refl).
  - intros s r s' H. injection H as <- <-. exists [].
    rewrite app_nil_r. repeat split; try done.
    left. split; [constructor|]. by intros [= ->].
Qed.

(** *** No Python operation of the script raises a provider error *)

Lemma subscript_not_http d k : Py.subscript d k ≠ Raise HttpError.
Proof. unfold Py.subscript. by destruct (d !! k). Qed.

Lemma get_not_http v k dflt : Py.get v k dflt ≠ Raise HttpError.
Proof. by destruct v. Qed.

Lemma dateTime_or_date_not_http e k :
  dateTime_or_date e k ≠ Raise HttpError.
Proof.
  unfold dateTime_or_date, Py.subscript.
  destruct (e !! k) as [v|]; [|done]. by destruct v.
Qed.

Lemma events_delete_not_http cid v : events_delete cid v ≠ Raise HttpError.
Proof. by destruct v. Qed.

Lemma events_delete_Return cid v c :
  events_delete cid v = Return c → c = EventsDelete cid v ∧ v ≠ VNone.
Proof. destruct v; simpl; intros [= <-]; done. Qed.

Lemma overlap_test_not_http a b start end_ :
  overlap_test a b start end_ ≠ Raise HttpError.
Proof.
  unfold overlap_test, Py.le, Py.ge.
  destruct a; try done. destruct (String.leb _ _); [|done]. by destruct b.
Qed.

(** *** Which calls each function issues *)

Lemma obeys_get_all_events cid tmin tmax :
  obeys (list_on cid) (get_all_events cid tmin tmax).
Proof.
  apply obeys_bind; [|intros; apply obeys_ret].
  apply obeys_execute. by exists tmin, tmax.
Qed.

Lemma obeys_create_busy_event a b :
  obeys insert_busy (create_busy_event a b).
Proof.
  apply obeys_bind; [|intros; apply obeys_ret].
  apply obeys_execute. by exists a, b.
Qed.

Lemma obeys_delete_all tmin tmax :
  obeys (λ c, list_on AVAILABILITY_CALENDAR_ID c
              ∨ delete_on AVAILABILITY_CALENDAR_ID c)
    (delete_all_availability_events tmin tmax).
Proof.
  apply obeys_bind.
  { eapply obeys_weaken; [|apply obeys_get_all_events]. intros c; simpl; tauto. }
  intros evs. apply obeys_bind; [|intros; apply obeys_ret].
  apply obeys_for_each. intros e _.
  apply obeys_bind; [apply obeys_lift, subscript_not_http|].
  intros i. apply obeys_bind_lift; [apply events_delete_not_http|].
  intros c Hc. apply events_delete_Return in Hc as [-> _].
  apply obeys_bind; [|intros; apply obeys_ret].
  apply obeys_execute. right. by exists i.
Qed.

Lemma obeys_delete_overlapping cid start end_ :
  obeys (λ c, list_on cid c ∨ delete_on cid c)
    (delete_overlapping_events cid start end_).
Proof.
  apply obeys_bind.
  { eapply obeys_weaken; [|apply obeys_get_all_events]. intros c; simpl; tauto. }
  intros evs. apply obeys_bind; [|intros; apply obeys_ret].
  apply obeys_for_each. intros e _.
  apply obeys_bind; [apply obeys_lift, dateTime_or_date_not_http|].
  intros a. apply obeys_bind; [apply obeys_lift, dateTime_or_date_not_http|].
  intros b. apply obeys_bind; [apply obeys_lift, overlap_test_not_http|].
  intros [|]; [|apply obeys_ret].
  apply obeys_bind; [apply obeys_lift, subscript_not_http|].
  intros i. apply obeys_bind_lift; [apply events_delete_not_http|].
  intros c Hc. apply events_delete_Return in Hc as [-> _].
  apply obeys_bind; [|intros; apply obeys_ret].
  apply obeys_execute. right. by exists i.
Qed.

Lemma obeys_sync tmin tmax :
  obeys (λ c, list_on "primary" c ∨ insert_busy c)
    (sync_availability tmin tmax).
Proof.
  apply obeys_bind.
  { eapply obeys_weaken; [|apply obeys_get_all_events]. intros c; simpl; tauto. }
  intros evs. apply obeys_bind; [|intros; apply obeys_ret].
  apply obeys_for_each. intros e _.
  destruct (busy e); [|apply obeys_ret].
  apply obeys_bind; [apply obeys_lift, dateTime_or_date_not_http|].
  intros a. apply obeys_bind; [apply obeys_lift, dateTime_or_date_not_http|].
  intros b. apply obeys_bind; [|intros; apply obeys_ret].
  eapply obeys_weaken; [|apply obeys_create_busy_event]. intros c; simpl; tauto.
Qed.

Lemma obeys_main now end_time :
  obeys (λ c, list_on AVAILABILITY_CALENDAR_ID c
              ∨ delete_on AVAILABILITY_CALENDAR_ID c
              ∨ list_on "primary" c ∨ insert_busy c)
    (main now end_time).
Proof.
  apply obeys_bind.
  { eapply obeys_weaken; [|apply obeys_delete_all]. intros c; simpl; tauto. }
  intros _. apply obeys_bind; [|intros; apply obeys_ret].
  eapply obeys_weaken; [|apply obeys_sync]. intros c; simpl; tauto.
Qed.

(** A refused call can only be the last entry of an orderly stretch. *)
Lemma orderly_refused {A} (r : result A) pre c post :
  orderly r (pre ++ (c, false) :: post) →
  post = [] ∧ accepted pre ∧ r = Raise HttpError.
Proof.
  intros [[Hacc _]|(pre' & c' & Heq & Hpre' & ->)].
  - apply Forall_app in Hacc as [_ Hacc]. by inversion Hacc.
  - destruct post as [|x post _] using rev_ind.
    + apply app_inj_tail in Heq as [-> _]. done.
    + rewrite app_comm_cons, app_assoc in Heq.
      apply app_inj_tail in Heq as [<- _].
      apply Forall_app in Hpre' as [_ Hacc]. by inversion Hacc.
Qed.

Lemma replay_refused hist pre c cals :
  replay hist (pre ++ [(c, false)]) cals = replay hist pre cals.
Proof. by rewrite replay_app. Qed.

(** *** Filters over boolean tests *)

Lemma filter_cons_bool {A} (f : A → bool) x l :
  filter (λ e, f e) (x :: l)
  = if f x then x :: filter (λ e, f e) l else filter (λ e, f e) l.
Proof. rewrite filter_cons. by destruct (f x). Qed.

Lemma survivors_nil cal : survivors [] cal = cal.
Proof.
  unfold survivors. induction cal as [|e cal IH]; [done|].
  rewrite filter_cons_bool, IH. done.
Qed.

Lemma survivors_cons x i fetched cal :
  x !! "id" = Some (VStr i) →
  survivors (x :: fetched) cal
  = survivors fetched (filter (λ e, negb (has_id i e)) cal).
Proof.
  intros Hx. unfold survivors. rewrite list_filter_filter.
  apply list_filter_iff. intros e. simpl. unfold shares_id. rewrite Hx.
  destruct (has_id i e), (forallb _ fetched); simpl; tauto.
Qed.

(** *** The delete sweep of [delete_all_availability_events] *)

Lemma delete_sweep_Return l : ∀ s s' cal,
  for_each l
    (λ event,
      event_id <- lift (Py.subscript event "id") ;;
      request <- lift (events_delete AVAILABILITY_CALENDAR_ID event_id) ;;
      execute request ;;
      ret tt) s = (Return tt, s') →
  calendars s !! AVAILABILITY_CALENDAR_ID = Some cal →
  trace s' = trace s
             ++ map (λ e, (EventsDelete AVAILABILITY_CALENDAR_ID (ident e),
                           true)) l
  ∧ Forall (λ e, ∃ i, e !! "id" = Some (VStr i)) l
  ∧ calendars s'
    = <[AVAILABILITY_CALENDAR_ID := survivors l cal]> (calendars s).
Proof.
  induction l as [|x l IH]; intros s s' cal H Hcal; simpl in H.
  - inversion H; subst. rewrite app_nil_r, survivors_nil.
    split; [done|]. split; [constructor|]. by rewrite insert_id.
  - apply bind_inv in H as [(u & s1 & Hx & Hrest)|(e & Hx & ?)]; [|done].
    apply bind_inv in Hx as [(v & s0 & Hv & Hx)|(e & Hx & ?)]; [|done].
    injection Hv as Hv <-.
    apply bind_inv in Hx as [(c & s0 & Hreq & Hx)|(e & Hx & ?)]; [|done].
    injection Hreq as Hreq <-. apply events_delete_Return in Hreq as [-> _].
    apply bind_inv in Hx as [(resp & s2 & He & Hret)|(e & Hx & ?)]; [|done].
    injection Hret as _ ->.
    apply execute_inv in He
      as [_ [(cals & resp' & Hp & _ & _ & Hc & Ht)|(_ & [=] & _)]].
    unfold Py.subscript in Hv.
    destruct (x !! "id") as [v'|] eqn:Hid; [|done]. injection Hv as ->.
    simpl in Hp. destruct v as [|i| | | |]; try done.
    rewrite Hcal in Hp.
    destruct (existsb (has_id i) cal); [|done]. injection Hp as <- _.
    destruct (IH s1 s' (filter (λ e, negb (has_id i e)) cal) Hrest)
      as (Ht' & Hids & Hc').
    { rewrite Hc. apply lookup_insert_eq. }
    split; [|split].
    + rewrite Ht', Ht, <- app_assoc. simpl. unfold ident at 2.
      by rewrite Hid.
    + constructor; [by exists i|done].
    + rewrite Hc', Hc, insert_insert_eq. by erewrite survivors_cons.
Qed.

Lemma get_all_events_inv cid tmin tmax s r s' :
  get_all_events cid tmin tmax s = (r, s') →
  (∃ cal,
      calendars s !! cid = Some cal
      ∧ r = Return (by_start (filter (λ e, in_window tmin tmax e) cal))
      ∧ calendars s' = calendars s
      ∧ trace s' = trace s ++ [(EventsList cid tmin tmax, true)])
  ∨ (r = Raise HttpError ∧ calendars s' = calendars s
     ∧ trace s' = trace s ++ [(EventsList cid tmin tmax, false)]).
Proof.
  intros H. apply bind_inv in H as [(resp & s1 & He & Hret)|(e & He & ->)].
  - injection Hret as <- <-.
    apply execute_inv in He
      as [_ [(cals & resp' & Hp & _ & [= <-] & Hc & Ht)|(_ & [=] & _)]].
    simpl in Hp. destruct (calendars s !! cid) as [cal|]; [|done].
    injection Hp as <- <-. left. exists cal. by rewrite Hc.
  - apply execute_inv in He
      as [_ [(cals & resp' & _ & _ & [=] & _)|(_ & [= ->] & Hc & Ht)]].
    by right.
Qed.

Lemma delete_all_Return tmin tmax s v s' :
  delete_all_availability_events tmin tmax s = (Return v, s') →
  ∃ cal,
    calendars s !! AVAILABILITY_CALENDAR_ID = Some cal
    ∧ v = VNone
    ∧ trace s'
      = trace s
        ++ (EventsList AVAILABILITY_CALENDAR_ID (Some tmin) (Some tmax),
            true)
           :: map (λ e, (EventsDelete AVAILABILITY_CALENDAR_ID (ident e),
                         true)) (view tmin tmax cal)
    ∧ Forall (λ e, ∃ i, e !! "id" = Some (VStr i)) (view tmin tmax cal)
    ∧ calendars s'
      = <[AVAILABILITY_CALENDAR_ID := survivors (view tmin tmax cal) cal]>
          (calendars s).
Proof.
  intros H. apply bind_inv in H as [(evs & s1 & Hl & H)|(e & ? & ?)]; [|done].
  apply get_all_events_inv in Hl
    as [(cal & Hcal & [= ->] & Hc & Ht)|([=] & _)].
  apply bind_inv in H as [([] & s2 & Hloop & Hret)|(e & ? & ?)]; [|done].
  injection Hret as <- <-. exists cal.
  eapply delete_sweep_Return in Hloop as (Ht' & Hids & Hc');
    [|by rewrite Hc].
  split; [done|]. split; [done|]. split; [|split; [done|]].
  - by rewrite Ht', Ht, <- app_assoc.
  - by rewrite Hc', Hc.
Qed.

(** *** The create sweep of [sync_availability] *)

Lemma effective_Return e k v :
  dateTime_or_date e k = Return v → effective e k = v.
Proof. unfold effective. by intros ->. Qed.

Lemma dateTime_or_date_time_of e k v :
  dateTime_or_date e k = Return v → v = time_of e k.
Proof.
  unfold dateTime_or_date, time_of, raw, Py.subscript.
  destruct (e !! k) as [[| | | | |d]|]; try done. simpl.
  intros [= <-]. by destruct (d !! "dateTime"), (d !! "date").
Qed.

Lemma interval_times e a b : interval e = Some (a, b) → times e = (a, b).
Proof.
  unfold interval, times.
  destruct (dateTime_or_date e "start") as [a'|] eqn:Ha; [|done].
  destruct (dateTime_or_date e "end") as [b'|] eqn:Hb; [|done].
  intros [= <- <-].
  by rewrite <- (dateTime_or_date_time_of _ _ _ Ha),
    <- (dateTime_or_date_time_of _ _ _ Hb).
Qed.

Lemma interval_Return e a b :
  dateTime_or_date e "start" = Return a →
  dateTime_or_date e "end" = Return b →
  interval e = Some (effective e "start", effective e "end")
  ∧ placeholder e = busy_event a b.
Proof.
  intros Ha Hb. unfold interval, placeholder, effective.
  by rewrite Ha, Hb.
Qed.

Lemma create_busy_event_Return a b s v s' :
  create_busy_event a b s = (Return v, s') →
  v = VNone
  ∧ trace s'
    = trace s ++ [(EventsInsert AVAILABILITY_CALENDAR_ID (busy_event a b),
                   true)]
  ∧ ∃ cal,
      calendars s !! AVAILABILITY_CALENDAR_ID = Some cal
      ∧ calendars s'
        = <[AVAILABILITY_CALENDAR_ID :=
              cal ++ [<["id" := VStr (new_id (trace s) cal)]>
                        (busy_event a b)]]> (calendars s).
Proof.
  intros H. apply bind_inv in H as [(resp & s1 & He & Hret)|(e & ? & ?)];
    [|done].
  injection Hret as <- <-.
  apply execute_inv in He
    as [_ [(cals & resp' & Hp & _ & _ & Hc & Ht)|(_ & [=] & _)]].
  simpl in Hp.
  destruct (calendars s !! AVAILABILITY_CALENDAR_ID) as [cal|]; [|done].
  injection Hp as <- _. split; [done|]. split; [done|]. by exists cal.
Qed.

Lemma create_sweep_Return l : ∀ s s',
  for_each l
    (λ event,
      if busy event then
        start <- lift (dateTime_or_date event "start") ;;
        end_ <- lift (dateTime_or_date event "end") ;;
        create_busy_event start end_ ;;
        ret tt
      else ret tt) s = (Return tt, s') →
  trace s' = trace s
             ++ map (λ e, (EventsInsert AVAILABILITY_CALENDAR_ID
                             (placeholder e), true))
                  (filter (λ e, busy e) l)
  ∧ Forall (λ e, busy e →
                 interval e = Some (effective e "start", effective e "end"))
      l
  ∧ ∀ cal, calendars s !! AVAILABILITY_CALENDAR_ID = Some cal →
      calendars s'
      = <[AVAILABILITY_CALENDAR_ID :=
            cal ++ stamp (trace s) cal
                     (map placeholder (filter (λ e, busy e) l))]>
          (calendars s).
Proof.
  induction l as [|x l IH]; intros s s' H; simpl in H.
  - inversion H; subst. rewrite !app_nil_r.
    split; [done|]. split; [constructor|].
    intros cal Hcal. simpl. by rewrite app_nil_r, insert_id.
  - rewrite filter_cons_bool.
    apply bind_inv in H as [(u & s1 & Hx & Hrest)|(e & Hx & ?)]; [|done].
    destruct (busy x) eqn:Hbusy.
    + apply bind_inv in Hx as [(a & s0 & Ha & Hx)|(e & Hx & ?)]; [|done].
      injection Ha as Ha <-.
      apply bind_inv in Hx as [(b & s0 & Hb & Hx)|(e & Hx & ?)]; [|done].
      injection Hb as Hb <-.
      apply bind_inv in Hx as [(v & s2 & Hcr & Hret)|(e & Hx & ?)]; [|done].
      injection Hret as _ ->.
      apply create_busy_event_Return in Hcr as (_ & Ht & cal0 & Hcal0 & Hc).
      destruct (interval_Return x a b Ha Hb) as [Hint Hph].
      destruct (IH s1 s' Hrest) as (Ht' & Hall & Hc').
      split; [|split].
      * rewrite Ht', Ht, <- app_assoc. simpl. by rewrite Hph.
      * constructor; [done|done].
      * intros cal Hcal. rewrite Hcal in Hcal0. injection Hcal0 as <-.
        erewrite Hc'; [|rewrite Hc; apply lookup_insert_eq].
        rewrite Hc, insert_insert_eq. simpl.
        by rewrite Hph, Ht, <- app_assoc.
    + injection Hx as _ ->. destruct (IH s1 s' Hrest) as (Ht' & Hall & Hc').
      split; [done|]. split; [|done].
      constructor; [|done]. by rewrite Hbusy.
Qed.

Lemma sync_Return tmin tmax s v s' :
  sync_availability tmin tmax s = (Return v, s') →
  ∃ src,
    calendars s !! "primary" = Some src
    ∧ v = VNone
    ∧ trace s'
      = trace s
        ++ (EventsList "primary" (Some tmin) (Some tmax), true)
           :: map (λ e, (EventsInsert AVAILABILITY_CALENDAR_ID
                           (placeholder e), true))
                (filter (λ e, busy e) (view tmin tmax src))
    ∧ Forall (λ e, busy e →
                 interval e = Some (effective e "start", effective e "end"))
        (view tmin tmax src)
    ∧ ∀ cal, calendars s !! AVAILABILITY_CALENDAR_ID = Some cal →
        calendars s'
        = <[AVAILABILITY_CALENDAR_ID :=
              cal ++ stamp
                       (trace s ++ [(EventsList "primary" (Some tmin)
                                       (Some tmax), true)])
                       cal
                       (map placeholder
                          (filter (λ e, busy e) (view tmin tmax src)))]>
            (calendars s).
Proof.
  intros H. apply bind_inv in H as [(evs & s1 & Hl & H)|(e & ? & ?)]; [|done].
  apply get_all_events_inv in Hl
    as [(src & Hsrc & [= ->] & Hc & Ht)|([=] & _)].
  apply bind_inv in H as [([] & s2 & Hloop & Hret)|(e & ? & ?)]; [|done].
  injection Hret as <- <-. exists src.
  apply create_sweep_Return in Hloop as (Ht' & Hall & Hc').
  split; [done|]. split; [done|]. split; [|split; [done|]].
  - by rewrite Ht', Ht, <- app_assoc.
  - intros cal Hcal. rewrite (Hc' cal), Hc, Ht; [done|by rewrite Hc].
Qed.

(** *** Any run of [sync_availability], completed or not *)

Lemma obeys_create_sweep l :
  obeys (mirrors l)
    (for_each l
       (λ event,
         if busy event then
           start <- lift (dateTime_or_date event "start") ;;
           end_ <- lift (dateTime_or_date event "end") ;;
           create_busy_event start end_ ;;
           ret tt
         else ret tt)).
Proof.
  apply obeys_for_each. intros e He.
  destruct (busy e) eqn:Hbusy; [|apply obeys_ret].
  apply obeys_bind_lift; [apply dateTime_or_date_not_http|]. intros a Ha.
  apply obeys_bind_lift; [apply dateTime_or_date_not_http|]. intros b Hb.
  apply obeys_bind; [|intros; apply obeys_ret].
  apply obeys_bind; [|intros; apply obeys_ret].
  apply obeys_execute. exists e.
  destruct (interval_Return e a b Ha Hb) as [_ ->].
  rewrite (effective_Return _ _ _ Ha), (effective_Return _ _ _ Hb).
  done.
Qed.

Lemma sync_any tmin tmax s r s' :
  sync_availability tmin tmax s = (r, s') →
  ∃ ok rest,
    trace s' = trace s
               ++ (EventsList "primary" (Some tmin) (Some tmax), ok) :: rest
    ∧ Forall (λ cb, ∃ src, calendars s !! "primary" = Some src
                           ∧ mirrors (view tmin tmax src) cb.1) rest.
Proof.
  intros H. apply bind_inv in H as [(evs & s1 & Hl & H)|(e & Hl & ->)].
  - apply get_all_events_inv in Hl
      as [(src & Hsrc & [= ->] & Hc & Ht)|([=] & _)].
    apply bind_inv in H as [(u & s2 & Hloop & Hret)|(e & Hloop & ->)];
      [injection Hret as _ ->|];
      apply obeys_create_sweep in Hloop as (new & Ht' & Hnew & _);
      exists true, new; (split; [by rewrite Ht', Ht, <- app_assoc|]);
      (eapply Forall_impl; [exact Hnew|]); intros cb Hcb; by exists src.
  - apply get_all_events_inv in Hl
      as [(src & _ & [=] & _)|(_ & _ & Ht)].
    exists false, []. by split.
Qed.

Lemma replay_frame cid hist new cals k :
  Forall (λ cb, list_on cid cb.1 ∨ insert_busy cb.1) new →
  k ≠ AVAILABILITY_CALENDAR_ID →
  replay hist new cals !! k = cals !! k.
Proof.
  intros Hnew Hk. revert hist cals.
  induction Hnew as [|[c ok] new Hc _ IH]; intros hist cals; [done|].
  simpl in Hc. simpl. rewrite IH. destruct ok; [|done].
  destruct Hc as [(tmin & tmax & ->)|(a & b & ->)]; simpl.
  - by destruct (cals !! cid).
  - destruct (cals !! AVAILABILITY_CALENDAR_ID); [|done].
    by rewrite lookup_insert_ne.
Qed.

Lemma busy_spec e :
  busy e = true ↔ e !! "transparency" ≠ Some (VStr "transparent").
Proof.
  unfold busy, Py.ne_str.
  destruct (e !! "transparency") as [[|t| | | |]|]; simpl; try done.
  destruct (String.eqb_spec t "transparent") as [->|Hne]; simpl;
    naive_solver.
Qed.

Lemma issued_app s s' new : trace s' = trace s ++ new → issued s s' = new.
Proof. unfold issued. intros ->. by rewrite drop_app_length. Qed.

Lemma deletions_deletes cid (f : Event → value) l :
  deletions (map (λ e, (EventsDelete cid (f e), true)) l) = length l.
Proof.
  unfold deletions. induction l as [|e l IH]; [done|].
  cbn [map]. rewrite filter_cons_bool. cbn [deleted fst snd length].
  by rewrite IH.
Qed.

Lemma insertions_inserts cid (f : Event → Event) l :
  insertions (map (λ e, (EventsInsert cid (f e), true)) l) = length l.
Proof.
  unfold insertions. induction l as [|e l IH]; [done|].
  cbn [map]. rewrite filter_cons_bool. cbn [inserted fst snd length].
  by rewrite IH.
Qed.

Lemma fetched_not_survivor fetched cal e :
  e ∈ fetched → is_Some (e !! "id" ≫= λ v, match v with
                                            | VStr i => Some i
                                            | _ => None
                                            end) →
  e ∉ survivors fetched cal.
Proof.
  intros He [i Hi] Hs. unfold survivors in Hs.
  apply list_elem_of_filter in Hs as [Hs _].
  apply Is_true_true in Hs. rewrite forallb_forall in Hs.
  apply list_elem_of_In in He. specialize (Hs e He).
  unfold shares_id, has_id in Hs.
  destruct (e !! "id") as [[|j| | | |]|]; try done.
  by rewrite String.eqb_refl in Hs.
Qed.

(** C9. The clear that the entry point runs deletes every event that its
    list request returned: when it completes, it has issued one accepted
    delete per listed event, in order and whatever the event's times,
    transparency or origin, and none of the listed events is left in the
    availability calendar. *)
Theorem delete_all_deletes_every_listed_event tmin tmax s v s' :
  delete_all_availability_events tmin tmax s = (Return v, s') →
  ∃ cal cal',
    calendars s !! AVAILABILITY_CALENDAR_ID = Some cal
    ∧ calendars s' !! AVAILABILITY_CALENDAR_ID = Some cal'
    ∧ issued s s'
      = (EventsList AVAILABILITY_CALENDAR_ID (Some tmin) (Some tmax), true)
        :: map (λ e, (EventsDelete AVAILABILITY_CALENDAR_ID (ident e), true))
             (view tmin tmax cal)
    ∧ ∀ e, e ∈ view tmin tmax cal → e ∉ cal'.
Proof.
  intros H. apply delete_all_Return in H as (cal & Hcal & _ & Ht & Hids & Hc).
  exists cal, (survivors (view tmin tmax cal) cal).
  split; [done|]. split; [rewrite Hc; apply lookup_insert_eq|].
  split; [by apply issued_app|].
  intros e He. apply fetched_not_survivor; [done|].
  rewrite Forall_forall in Hids. destruct (Hids e He) as [i ->]. by exists i.
Qed.

(** C4, as the code has it.  Neither sweep returns a count: a completed
    clear and a completed sync both return [None].  The counts exist only
    as calls: the clear made as many accepted deletes as its list request
    returned events, the sync as many accepted inserts as it fetched busy
    events. *)
Theorem sweeps_return_None tmin tmax s v s' tmin2 tmax2 s2 v2 s2' :
  delete_all_availability_events tmin tmax s = (Return v, s') →
  sync_availability tmin2 tmax2 s2 = (Return v2, s2') →
  v = VNone ∧ v2 = VNone
  ∧ (∃ cal, calendars s !! AVAILABILITY_CALENDAR_ID = Some cal
            ∧ deletions (issued s s') = length (view tmin tmax cal))
  ∧ (∃ src, calendars s2 !! "primary" = Some src
            ∧ insertions (issued s2 s2')
              = length (filter (λ e, busy e) (view tmin2 tmax2 src))).
Proof.
  intros H1 H2.
  apply delete_all_Return in H1 as (cal & Hcal & -> & Ht & _ & _).
  apply sync_Return in H2 as (src & Hsrc & -> & Ht2 & _ & _).
  split; [done|]. split; [done|]. split.
  - exists cal. split; [done|]. rewrite (issued_app _ _ _ Ht).
    unfold deletions. rewrite filter_cons_bool. cbn [deleted fst].
    apply deletions_deletes.
  - exists src. split; [done|]. rewrite (issued_app _ _ _ Ht2).
    unfold insertions. rewrite filter_cons_bool. cbn [inserted fst].
    apply insertions_inserts.
Qed.

(** C3. A source event is mirrored exactly when its transparency is not
    the string "transparent".  In any run, completed or aborted, every
    insert that is attempted is the placeholder of a fetched event that is
    not transparent; in a completed run the inserts are, in order, the
    placeholders of all the fetched events that are not transparent; and
    an event without the field, or with "opaque" in it, is one of them. *)
Theorem sync_mirrors_exactly_the_busy_events tmin tmax s r s' :
  sync_availability tmin tmax s = (r, s') →
  (∀ cid body ok,
      (EventsInsert cid body, ok) ∈ issued s s' →
      ∃ src e, calendars s !! "primary" = Some src
               ∧ e ∈ view tmin tmax src
               ∧ e !! "transparency" ≠ Some (VStr "transparent")
               ∧ cid = AVAILABILITY_CALENDAR_ID ∧ body = placeholder e)
  ∧ (∀ v, r = Return v →
      ∃ src, calendars s !! "primary" = Some src
             ∧ issued s s'
               = (EventsList "primary" (Some tmin) (Some tmax), true)
                 :: map (λ e, (EventsInsert AVAILABILITY_CALENDAR_ID
                                 (placeholder e), true))
                      (filter (λ e, busy e) (view tmin tmax src)))
  ∧ (∀ e, busy e = true ↔ e !! "transparency" ≠ Some (VStr "transparent"))
  ∧ (∀ e, e !! "transparency" = None → busy e = true)
  ∧ (∀ e, e !! "transparency" = Some (VStr "opaque") → busy e = true).
Proof.
  intros H. split; [|split; [|split; [|split]]].
  - intros cid body ok Hin.
    apply sync_any in H as (ok0 & rest & Ht & Hrest).
    rewrite (issued_app _ _ _ Ht) in Hin.
    apply elem_of_cons in Hin as [[=]|Hin].
    rewrite Forall_forall in Hrest.
    destruct (Hrest _ Hin) as (src & Hsrc & e & He & Hb & _ & _ & Hcall).
    simpl in Hcall. injection Hcall as -> ->.
    exists src, e. by rewrite <- busy_spec.
  - intros v ->. apply sync_Return in H as (src & Hsrc & _ & Ht & _).
    exists src. split; [done|]. by apply issued_app.
  - apply busy_spec.
  - intros e He. apply busy_spec. by rewrite He.
  - intros e He. apply busy_spec. by rewrite He.
Qed.

Lemma dateTime_or_date_fields e k v :
  dateTime_or_date e k = Return v →
  ∃ d, e !! k = Some (VDict d)
       ∧ v = default (default VNone (d !! "date")) (d !! "dateTime").
Proof.
  unfold dateTime_or_date, Py.subscript.
  destruct (e !! k) as [[| | | | |d]|]; try done. simpl.
  intros [= <-]. by exists d.
Qed.

(** C6. Whatever [sync_availability] sends as a new mirror event, in any
    run, is the placeholder of a fetched source event: titled "Busy", its
    start and end holding under [dateTime] what the source event's own
    start and end dictionaries hold under [dateTime] (or under [date] when
    they have no [dateTime], or [None] when they have neither), each
    labelled with the time zone "UTC", and with no other field at all, so
    without attendees, description, identifier or any link to the source
    event. *)
Theorem mirror_event_shape tmin tmax s r s' cid body ok :
  sync_availability tmin tmax s = (r, s') →
  (EventsInsert cid body, ok) ∈ issued s s' →
  ∃ src e ds de,
    calendars s !! "primary" = Some src
    ∧ e ∈ view tmin tmax src
    ∧ e !! "start" = Some (VDict ds)
    ∧ e !! "end" = Some (VDict de)
    ∧ dateTime_or_date e "start" = Return (effective e "start")
    ∧ dateTime_or_date e "end" = Return (effective e "end")
    ∧ cid = AVAILABILITY_CALENDAR_ID
    ∧ body !! "summary" = Some (VStr "Busy")
    ∧ body !! "start"
      = Some (VDict {[ "dateTime" := effective e "start";
                       "timeZone" := VStr "UTC" ]})
    ∧ body !! "end"
      = Some (VDict {[ "dateTime" := effective e "end";
                       "timeZone" := VStr "UTC" ]})
    ∧ body !! "start"
      = Some (VDict {[ "dateTime" :=
                         default (default VNone (ds !! "date"))
                           (ds !! "dateTime");
                       "timeZone" := VStr "UTC" ]})
    ∧ body !! "end"
      = Some (VDict {[ "dateTime" :=
                         default (default VNone (de !! "date"))
                           (de !! "dateTime");
                       "timeZone" := VStr "UTC" ]})
    ∧ (∀ t, ds !! "dateTime" = Some t →
            body !! "start"
            = Some (VDict {[ "dateTime" := t; "timeZone" := VStr "UTC" ]}))
    ∧ (∀ t, de !! "dateTime" = Some t →
            body !! "end"
            = Some (VDict {[ "dateTime" := t; "timeZone" := VStr "UTC" ]}))
    ∧ body !! "attendees" = None
    ∧ body !! "description" = None
    ∧ body !! "id" = None
    ∧ ∀ k, k ≠ "summary" → k ≠ "start" → k ≠ "end" → body !! k = None.
Proof.
  intros H Hin. apply sync_any in H as (ok0 & rest & Ht & Hrest).
  rewrite (issued_app _ _ _ Ht) in Hin.
  apply elem_of_cons in Hin as [[=]|Hin].
  rewrite Forall_forall in Hrest.
  destruct (Hrest _ Hin) as (src & Hsrc & e & He & _ & Ha & Hb & Hcall).
  simpl in Hcall. injection Hcall as -> ->.
  destruct (dateTime_or_date_fields _ _ _ Ha) as (ds & Hds & Hva).
  destruct (dateTime_or_date_fields _ _ _ Hb) as (de & Hde & Hvb).
  exists src, e, ds, de. unfold placeholder, busy_event.
  repeat (split; [done|]).
  split; [by rewrite <- Hva|]. split; [by rewrite <- Hvb|].
  split; [intros t Ht'; rewrite Hva, Ht'; done|].
  split; [intros t Ht'; rewrite Hvb, Ht'; done|].
  repeat (split; [done|]).
  intros k H1 H2 H3. by rewrite !lookup_insert_ne, lookup_singleton_ne.
Qed.

(** C7. A fetched event that is not transparent and whose start and end
    carry a [date] but no [dateTime] is not dropped by a completed sync:
    an insert is accepted for it whose start input is the start's date
    and whose end input is the end's date. *)
Theorem all_day_event_is_mirrored tmin tmax s v s' src e ds de d1 d2 :
  sync_availability tmin tmax s = (Return v, s') →
  calendars s !! "primary" = Some src →
  e ∈ view tmin tmax src →
  e !! "transparency" ≠ Some (VStr "transparent") →
  e !! "start" = Some (VDict ds) →
  ds !! "dateTime" = None → ds !! "date" = Some d1 →
  e !! "end" = Some (VDict de) →
  de !! "dateTime" = None → de !! "date" = Some d2 →
  (EventsInsert AVAILABILITY_CALENDAR_ID (busy_event d1 d2), true)
    ∈ issued s s'
  ∧ busy_event d1 d2 !! "start"
    = Some (VDict {[ "dateTime" := d1; "timeZone" := VStr "UTC" ]})
  ∧ busy_event d1 d2 !! "end"
    = Some (VDict {[ "dateTime" := d2; "timeZone" := VStr "UTC" ]}).
Proof.
  intros H Hsrc He Hbusy Hs Hs1 Hs2 Hen He1 He2.
  split; [|done].
  apply sync_Return in H as (src' & Hsrc' & _ & Ht & _).
  rewrite Hsrc in Hsrc'. injection Hsrc' as <-.
  rewrite (issued_app _ _ _ Ht). right.
  assert (placeholder e = busy_event d1 d2) as <-.
  { unfold placeholder, effective, dateTime_or_date, Py.subscript.
    rewrite Hs, Hen. simpl. by rewrite Hs1, Hs2, He1, He2. }
  apply (list_elem_of_fmap_2
           (λ e, (EventsInsert AVAILABILITY_CALENDAR_ID (placeholder e),
                  true))).
  apply list_elem_of_filter. split; [|done].
  apply Is_true_true. by apply busy_spec.
Qed.

(** C8. A refused call ends the run.  If the log of a run of the entry
    point holds a refused call, that call is the last thing the run
    attempted (no later delete or insert, no second try), the run raised
    the provider's error, every earlier call was accepted, and the
    calendars are exactly what those earlier calls made them: nothing is
    undone. *)
Theorem refused_call_aborts_the_run now end_time s r s' pre c post :
  main now end_time s = (r, s') →
  issued s s' = pre ++ (c, false) :: post →
  post = [] ∧ r = Raise HttpError ∧ accepted pre
  ∧ calendars s' = replay (trace s) pre (calendars s).
Proof.
  intros H Hlog.
  apply obeys_main in H as (new & Ht & _ & Hord & _ & Hc).
  rewrite (issued_app _ _ _ Ht) in Hlog. subst new.
  destruct (orderly_refused _ _ _ _ Hord) as (-> & Hacc & ->).
  repeat (split; [done|]). by rewrite Hc, replay_refused.
Qed.

(** C10. [sync_availability] reads the source and writes the mirror: in
    any run every call it makes is a list request on "primary" or an
    insert into the availability calendar, and as long as that calendar
    is not "primary" itself, the events of "primary" are the same after
    the run as before. *)
Theorem sync_leaves_the_source_untouched tmin tmax s r s' :
  AVAILABILITY_CALENDAR_ID ≠ "primary" →
  sync_availability tmin tmax s = (r, s') →
  calendars s' !! "primary" = calendars s !! "primary"
  ∧ Forall (λ cb, list_on "primary" cb.1
                  ∨ ∃ body, cb.1 = EventsInsert AVAILABILITY_CALENDAR_ID body)
      (issued s s').
Proof.
  intros Hne H. apply obeys_sync in H as (new & Ht & Hnew & _ & _ & Hc).
  split.
  - rewrite Hc. eapply replay_frame; [exact Hnew|done].
  - rewrite (issued_app _ _ _ Ht). eapply Forall_impl; [exact Hnew|].
    intros cb [?|(a & b & ?)]; [by left|right; eauto].
Qed.

(** *** The sweep of [delete_overlapping_events] *)

Lemma overlapping_spec start end_ e :
  overlapping start end_ e = true ↔
  ∃ a b, effective e "start" = VStr a ∧ effective e "end" = VStr b
         ∧ String.leb a end_ = true ∧ String.leb start b = true.
Proof.
  unfold overlapping, overlap_test, Py.le, Py.ge.
  destruct (effective e "start") as [|a| | | |];
    try (split; [done|by intros (? & ? & ? & _)]).
  destruct (String.leb a end_) eqn:Ha;
    [|split; [done|intros (? & ? & [= <-] & _ & ? & _); congruence]].
  destruct (effective e "end") as [|b| | | |];
    try (split; [done|by intros (? & ? & _ & ? & _)]).
  split.
  - intros Hb. by exists a, b.
  - by intros (? & ? & _ & [= <-] & _ & ?).
Qed.

Lemma overlap_sweep_Return cid start end_ l : ∀ s s',
  for_each l
    (λ event,
      event_start <- lift (dateTime_or_date event "start") ;;
      event_end <- lift (dateTime_or_date event "end") ;;
      overlapping <- lift (overlap_test event_start event_end start end_) ;;
      if (overlapping : bool) then
        event_id <- lift (Py.subscript event "id") ;;
        request <- lift (events_delete cid event_id) ;;
        execute request ;;
        ret tt
      else ret tt) s = (Return tt, s') →
  trace s' = trace s
             ++ map (λ e, (EventsDelete cid (ident e), true))
                  (filter (λ e, overlapping start end_ e) l).
Proof.
  induction l as [|x l IH]; intros s s' H; simpl in H.
  - inversion H; subst. by rewrite app_nil_r.
  - rewrite filter_cons_bool.
    apply bind_inv in H as [(u & s1 & Hx & Hrest)|(e & Hx & ?)]; [|done].
    apply bind_inv in Hx as [(a & s0 & Ha & Hx)|(e & Hx & ?)]; [|done].
    injection Ha as Ha <-.
    apply bind_inv in Hx as [(b & s0 & Hb & Hx)|(e & Hx & ?)]; [|done].
    injection Hb as Hb <-.
    apply bind_inv in Hx as [(o & s0 & Ho & Hx)|(e & Hx & ?)]; [|done].
    injection Ho as Ho <-.
    unfold overlapping.
    rewrite (effective_Return _ _ _ Ha), (effective_Return _ _ _ Hb), Ho.
    destruct o.
    + apply bind_inv in Hx as [(i & s0 & Hi & Hx)|(e & Hx & ?)]; [|done].
      injection Hi as Hi <-.
      apply bind_inv in Hx as [(c & s0 & Hreq & Hx)|(e & Hx & ?)]; [|done].
      injection Hreq as Hreq <-. apply events_delete_Return in Hreq as [-> _].
      apply bind_inv in Hx as [(resp & s2 & He & Hret)|(e & Hx & ?)];
        [|done].
      injection Hret as _ ->.
      apply execute_inv in He
        as [_ [(cals & resp' & _ & _ & _ & _ & Ht)|(_ & [=] & _)]].
      rewrite (IH s1 s' Hrest), Ht, <- app_assoc. simpl.
      unfold ident at 2. unfold Py.subscript in Hi.
      destruct (x !! "id"); [|done]. by injection Hi as ->.
    + injection Hx as _ ->. by apply IH.
Qed.

(** C2, as the code has it.  The overlap test lives in
    [delete_overlapping_events], which the entry point never calls: when
    that function completes it has deleted, of the events its list request
    returned, exactly those whose start is at most the window's end and
    whose end is at least the window's start, compared as strings and with
    equality allowed, so an event that touches a bound is deleted.  The
    clear that the entry point does run, [delete_all_availability_events],
    makes no such test: it deletes every event its list request returned. *)
Theorem overlap_test_only_in_unused_clear
    cid start end_ s v s' tmin tmax s0 v0 s0' :
  delete_overlapping_events cid start end_ s = (Return v, s') →
  delete_all_availability_events tmin tmax s0 = (Return v0, s0') →
  (∃ cal,
      calendars s !! cid = Some cal
      ∧ issued s s'
        = (EventsList cid (Some start) (Some end_), true)
          :: map (λ e, (EventsDelete cid (ident e), true))
               (filter (λ e, overlapping start end_ e)
                  (view start end_ cal)))
  ∧ (∀ e, overlapping start end_ e = true ↔
          ∃ a b, effective e "start" = VStr a ∧ effective e "end" = VStr b
                 ∧ String.leb a end_ = true ∧ String.leb start b = true)
  ∧ (∀ e b, effective e "start" = VStr end_ → effective e "end" = VStr b →
            String.leb start b = true → overlapping start end_ e = true)
  ∧ (∀ e a, effective e "start" = VStr a → effective e "end" = VStr start →
            String.leb a end_ = true → overlapping start end_ e = true)
  ∧ (∃ cal0,
        calendars s0 !! AVAILABILITY_CALENDAR_ID = Some cal0
        ∧ issued s0 s0'
          = (EventsList AVAILABILITY_CALENDAR_ID (Some tmin) (Some tmax),
             true)
            :: map (λ e, (EventsDelete AVAILABILITY_CALENDAR_ID (ident e),
                          true)) (view tmin tmax cal0)).
Proof.
  intros H H0.
  assert (Hrefl : ∀ x, String.leb x x = true).
  { intros x. by destruct (String.leb_total x x). }
  split; [|split; [|split; [|split]]].
  - apply bind_inv in H as [(evs & s1 & Hl & H)|(e & ? & ?)]; [|done].
    apply get_all_events_inv in Hl
      as [(cal & Hcal & [= ->] & Hc & Ht)|([=] & _)].
    apply bind_inv in H as [([] & s2 & Hloop & Hret)|(e & ? & ?)]; [|done].
    injection Hret as _ ->. exists cal. split; [done|].
    apply issued_app. apply overlap_sweep_Return in Hloop.
    by rewrite Hloop, Ht, <- app_assoc.
  - apply overlapping_spec.
  - intros e b Ha Hb Hle. apply overlapping_spec. exists end_, b. eauto.
  - intros e a Ha Hb Hle. apply overlapping_spec. exists a, start. eauto.
  - apply delete_all_Return in H0 as (cal0 & Hcal0 & _ & Ht & _).
    exists cal0. split; [done|]. by apply issued_app.
Qed.

(** *** A completed cycle *)

Lemma interval_with_id (b : Event) v :
  interval (<["id" := v]> b) = interval b.
Proof.
  unfold interval, dateTime_or_date, Py.subscript.
  by rewrite !lookup_insert_ne.
Qed.

Lemma interval_placeholder e :
  interval (placeholder e) = Some (effective e "start", effective e "end").
Proof. done. Qed.

Lemma placeholder_no_id e : placeholder e !! "id" = None.
Proof. done. Qed.

Lemma times_with_id (b : Event) v : times (<["id" := v]> b) = times b.
Proof. unfold times, time_of, raw. by rewrite !lookup_insert_ne. Qed.

Lemma carried_with_id (b : Event) v : carried (<["id" := v]> b) = carried b.
Proof. unfold carried, raw. by rewrite !lookup_insert_ne. Qed.

Lemma times_placeholder e :
  times (placeholder e) = (effective e "start", effective e "end").
Proof. done. Qed.

Lemma carried_placeholder e :
  carried (placeholder e) = (effective e "start", effective e "end").
Proof. done. Qed.

Lemma stamp_carried bodies : ∀ hist cal,
  map carried (stamp hist cal bodies) = map carried bodies.
Proof.
  induction bodies as [|b bodies IH]; intros hist cal; [done|].
  simpl. by rewrite carried_with_id, IH.
Qed.

Lemma stamp_strip bodies : ∀ hist cal,
  Forall (λ b : Event, b !! "id" = None) bodies →
  map without_id (stamp hist cal bodies) = bodies.
Proof.
  induction bodies as [|b bodies IH]; intros hist cal Hb; [done|].
  inversion Hb as [|?? Hid Hrest]; subst. simpl. unfold without_id at 1.
  rewrite delete_insert_eq, IH by done. f_equal. by apply delete_id.
Qed.

Lemma stamp_elem bodies : ∀ hist cal c,
  c ∈ stamp hist cal bodies →
  ∃ hist' cal' b,
    c = <["id" := VStr (new_id hist' cal')]> b
    ∧ b ∈ bodies ∧ ∀ e, e ∈ cal → e ∈ cal'.
Proof.
  induction bodies as [|b bodies IH]; intros hist cal c Hc; simpl in Hc.
  - by apply elem_of_nil in Hc.
  - apply elem_of_cons in Hc as [->|Hc].
    + exists hist, cal, b. split; [done|]. split; [by left|done].
    + apply IH in Hc as (hist' & cal' & b' & -> & Hb' & Hsub).
      exists hist', cal', b'. split; [done|]. split; [by right|].
      intros e He. apply Hsub. apply elem_of_app. by left.
Qed.

Lemma main_Return now end_time s v s' :
  AVAILABILITY_CALENDAR_ID ≠ "primary" →
  main now end_time s = (Return v, s') →
  ∃ src cal hist,
    calendars s !! "primary" = Some src
    ∧ calendars s !! AVAILABILITY_CALENDAR_ID = Some cal
    ∧ Forall (λ e, ∃ i, e !! "id" = Some (VStr i)) (view now end_time cal)
    ∧ Forall (λ e, busy e →
                 interval e = Some (effective e "start", effective e "end"))
        (view now end_time src)
    ∧ calendars s'
      = <[AVAILABILITY_CALENDAR_ID :=
            survivors (view now end_time cal) cal
            ++ stamp hist (survivors (view now end_time cal) cal)
                 (map placeholder
                    (filter (λ e, busy e) (view now end_time src)))]>
          (calendars s).
Proof.
  intros Hne H.
  apply bind_inv in H as [(v1 & s1 & Hd & H)|(e & ? & ?)]; [|done].
  apply bind_inv in H as [(v2 & s2 & Hs & Hret)|(e & ? & ?)]; [|done].
  injection Hret as _ ->.
  apply delete_all_Return in Hd as (cal & Hcal & _ & Ht & Hids & Hc).
  apply sync_Return in Hs as (src & Hsrc & _ & Ht2 & Hall & Hc2).
  rewrite Hc, lookup_insert_ne in Hsrc by done.
  exists src, cal. eexists. repeat (split; [done|]).
  erewrite Hc2; [|rewrite Hc; apply lookup_insert_eq].
  by rewrite Hc, insert_insert_eq.
Qed.

Lemma filter_bool_all {A} (f : A → bool) (l : list A) :
  (∀ x, x ∈ l → f x = true) → filter (λ e, f e) l = l.
Proof.
  induction l as [|x l IH]; intros H; [done|].
  rewrite filter_cons_bool, (H x) by left. f_equal.
  apply IH. intros y Hy. apply H. by right.
Qed.

Lemma filter_bool_none {A} (f : A → bool) (l : list A) :
  (∀ x, x ∈ l → f x = false) → filter (λ e, f e) l = [].
Proof.
  induction l as [|x l IH]; intros H; [done|].
  rewrite filter_cons_bool, (H x) by left.
  apply IH. intros y Hy. apply H. by right.
Qed.

Lemma placeholder_carried l :
  Forall (λ e, busy e →
               interval e = Some (effective e "start", effective e "end")) l →
  map carried (map placeholder (filter (λ e, busy e) l))
  = map times (filter (λ e, busy e) l).
Proof.
  induction 1 as [|e l He _ IH]; [done|].
  rewrite filter_cons_bool. destruct (busy e) eqn:Hb; [|done].
  simpl. rewrite IH, carried_placeholder. f_equal. symmetry.
  apply interval_times. by apply He.
Qed.

(** *** Runs that complete *)

Lemma execute_quiet c s cals r :
  quiet s →
  provider (trace s) c (calendars s) = Some (cals, r) →
  execute c s
  = (Return r,
     {| calendars := cals; outages := tail (outages s);
        trace := trace s ++ [(c, true)] |}).
Proof.
  unfold quiet, execute. intros Hq ->.
  destruct (outages s) as [|[|] o]; try done. by inversion Hq.
Qed.

Lemma quiet_tail s cals t :
  quiet s →
  quiet {| calendars := cals; outages := tail (outages s); trace := t |}.
Proof.
  unfold quiet. simpl. intros Hq.
  destruct (outages s); [done|]. by inversion Hq.
Qed.

Lemma create_sweep_completes l : ∀ s cal,
  quiet s →
  calendars s !! AVAILABILITY_CALENDAR_ID = Some cal →
  Forall (λ e, busy e → is_Some (interval e)) l →
  ∃ s',
    for_each l
      (λ event,
        if busy event then
          start <- lift (dateTime_or_date event "start") ;;
          end_ <- lift (dateTime_or_date event "end") ;;
          create_busy_event start end_ ;;
          ret tt
        else ret tt) s = (Return tt, s').
Proof.
  induction l as [|x l IH]; intros s cal Hq Hcal Hall; simpl.
  - by exists s.
  - inversion Hall as [|?? Hx Hl]; subst.
    destruct (busy x) eqn:Hb; [|by apply (IH s cal)].
    destruct Hx as [[a b] Hab]; [done|]. unfold interval in Hab.
    destruct (dateTime_or_date x "start") as [a'|] eqn:Ha; [|done].
    destruct (dateTime_or_date x "end") as [b'|] eqn:Hb'; [|done].
    unfold bind at 1. unfold bind at 1. unfold lift at 1. simpl.
    unfold bind at 1. unfold lift at 1. simpl.
    unfold bind at 1. unfold create_busy_event. unfold bind at 1.
    erewrite execute_quiet; [|done|simpl; by rewrite Hcal]. simpl.
    eapply IH; [by apply quiet_tail| |done].
    simpl. apply lookup_insert_eq.
Qed.

Lemma sync_completes tmin tmax s src cal :
  quiet s →
  calendars s !! "primary" = Some src →
  calendars s !! AVAILABILITY_CALENDAR_ID = Some cal →
  Forall (λ e, busy e → is_Some (interval e)) (view tmin tmax src) →
  ∃ s', sync_availability tmin tmax s = (Return VNone, s').
Proof.
  intros Hq Hsrc Hcal Hall. unfold sync_availability, get_all_events.
  unfold bind at 1. unfold bind at 1.
  erewrite execute_quiet; [|done|simpl; by rewrite Hsrc]. simpl.
  unfold bind at 1.
  edestruct (create_sweep_completes (view tmin tmax src)) as [s' Hs'];
    [by apply quiet_tail|exact Hcal|exact Hall|].
  unfold tqdm, view in *. rewrite Hs'. by exists s'.
Qed.

Lemma delete_sweep_completes l : ∀ s cal,
  quiet s →
  calendars s !! AVAILABILITY_CALENDAR_ID = Some cal →
  NoDup (map ident l) →
  Forall (λ e, e ∈ cal ∧ ∃ i, e !! "id" = Some (VStr i)) l →
  ∃ s',
    for_each l
      (λ event,
        event_id <- lift (Py.subscript event "id") ;;
        request <- lift (events_delete AVAILABILITY_CALENDAR_ID event_id) ;;
        execute request ;;
        ret tt) s = (Return tt, s').
Proof.
  induction l as [|x l IH]; intros s cal Hq Hcal Hnd Hall; simpl.
  - by exists s.
  - inversion Hall as [|?? [Hx [i Hi]] Hl]; subst.
    simpl in Hnd. apply NoDup_cons in Hnd as [Hfresh Hnd].
    unfold bind at 1. unfold bind at 1. unfold lift, Py.subscript.
    rewrite Hi. simpl. unfold bind at 1. unfold bind at 1.
    assert (existsb (has_id i) cal = true) as Hex.
    { apply existsb_exists. exists x. split; [by apply list_elem_of_In|].
      unfold has_id. by rewrite Hi, String.eqb_refl. }
    erewrite execute_quiet; [|done|simpl; by rewrite Hcal, Hex]. simpl.
    eapply IH; [by apply quiet_tail|simpl; apply lookup_insert_eq|done|].
    rewrite Forall_forall in Hl. apply Forall_forall. intros e He.
    destruct (Hl e He) as [Hin [j Hj]]. split; [|by exists j].
    apply list_elem_of_filter. split; [|done].
    apply Is_true_true, negb_true_iff. unfold has_id. rewrite Hj.
    apply String.eqb_neq. intros ->. apply Hfresh.
    apply list_elem_of_In, in_map_iff. exists e.
    split; [|by apply list_elem_of_In]. unfold ident. by rewrite Hi, Hj.
Qed.

Lemma delete_all_completes tmin tmax s cal :
  quiet s →
  calendars s !! AVAILABILITY_CALENDAR_ID = Some cal →
  NoDup (map ident (view tmin tmax cal)) →
  Forall (λ e, e ∈ cal ∧ ∃ i, e !! "id" = Some (VStr i)) (view tmin tmax cal) →
  ∃ s', delete_all_availability_events tmin tmax s = (Return VNone, s').
Proof.
  intros Hq Hcal Hnd Hall.
  unfold delete_all_availability_events, get_all_events.
  unfold bind at 1. unfold bind at 1.
  erewrite execute_quiet; [|done|simpl; by rewrite Hcal]. simpl.
  unfold bind at 1.
  edestruct (delete_sweep_completes (view tmin tmax cal)) as [s' Hs'];
    [by apply quiet_tail|exact Hcal|exact Hnd|exact Hall|].
  unfold tqdm, view in *. rewrite Hs'. by exists s'.
Qed.


(** *** What the theorems on whole cycles ask of the provider *)

Section Provider.

(** Ordering a listing neither adds nor drops events. *)
Hypothesis by_start_perm : ∀ l, by_start l ≡ₚ l.

(** Whether an event lies in a window depends on its times, and on
    nothing else. *)
Hypothesis window_by_times : ∀ tmin tmax e e',
  times e = times e' → in_window tmin tmax e = in_window tmin tmax e'.

(** The identifier given to a new event is carried by no event of the
    calendar it is inserted into. *)
Hypothesis new_id_fresh : ∀ hist cal e,
  e ∈ cal → has_id (new_id hist cal) e = false.

(** The configured availability calendar is not the source. *)
Hypothesis mirror_is_not_primary : AVAILABILITY_CALENDAR_ID ≠ "primary".

Lemma elem_of_view tmin tmax cal e :
  e ∈ view tmin tmax cal
  ↔ e ∈ cal ∧ in_window (Some tmin) (Some tmax) e = true.
Proof.
  unfold view. rewrite by_start_perm, list_elem_of_filter.
  rewrite Is_true_true. tauto.
Qed.

Lemma survivors_out_of_window tmin tmax cal e :
  Forall (λ e, ∃ i, e !! "id" = Some (VStr i)) (view tmin tmax cal) →
  e ∈ survivors (view tmin tmax cal) cal →
  in_window (Some tmin) (Some tmax) e = false.
Proof.
  intros Hids He.
  destruct (in_window (Some tmin) (Some tmax) e) eqn:Hw; [|done].
  exfalso. assert (e ∈ view tmin tmax cal) as Hv.
  { apply elem_of_view. split; [|done].
    unfold survivors in He. by apply list_elem_of_filter in He as [_ ?]. }
  eapply fetched_not_survivor; [exact Hv| |exact He].
  rewrite Forall_forall in Hids. destruct (Hids e Hv) as [i ->].
  by exists i.
Qed.

Lemma created_in_window tmin tmax src hist cal c :
  Forall (λ e, busy e →
               interval e = Some (effective e "start", effective e "end"))
    (view tmin tmax src) →
  c ∈ stamp hist cal
        (map placeholder (filter (λ e, busy e) (view tmin tmax src))) →
  in_window (Some tmin) (Some tmax) c = true
  ∧ ∃ hist' cal', c !! "id" = Some (VStr (new_id hist' cal'))
                  ∧ ∀ e, e ∈ cal → e ∈ cal'.
Proof.
  intros Hall Hc.
  apply stamp_elem in Hc as (hist' & cal' & b & -> & Hb & Hsub).
  apply list_elem_of_In, in_map_iff in Hb as (e & <- & He).
  apply list_elem_of_In, list_elem_of_filter in He as [Hbusy He].
  split.
  - rewrite (window_by_times _ _ _ e).
    + by apply elem_of_view in He as [_ ?].
    + rewrite times_with_id, times_placeholder. symmetry.
      apply interval_times. rewrite Forall_forall in Hall. by apply Hall.
  - exists hist', cal'. split; [|done]. apply lookup_insert_eq.
Qed.


Lemma second_clear_keeps_the_rest tmin tmax src hist rest :
  Forall (λ e, busy e →
               interval e = Some (effective e "start", effective e "end"))
    (view tmin tmax src) →
  (∀ e, e ∈ rest → in_window (Some tmin) (Some tmax) e = false) →
  let created :=
    stamp hist rest
      (map placeholder (filter (λ e, busy e) (view tmin tmax src))) in
  survivors (view tmin tmax (rest ++ created)) (rest ++ created) = rest.
Proof.
  intros Hall Hout created. unfold survivors. rewrite filter_app.
  rewrite filter_bool_all, filter_bool_none; [by rewrite app_nil_r| |].
  - intros c Hc.
    destruct (created_in_window _ _ _ _ _ _ Hall Hc)
      as (Hw & hist' & cal' & Hid & _).
    destruct (forallb _ _) eqn:Hf; [|done]. exfalso.
    rewrite forallb_forall in Hf.
    assert (In c (view tmin tmax (rest ++ created))) as Hin.
    { apply list_elem_of_In, elem_of_view. split; [|done].
      apply elem_of_app. by right. }
    apply Hf in Hin. unfold shares_id, has_id in Hin.
    rewrite Hid, String.eqb_refl in Hin. done.
  - intros e He. apply forallb_forall. intros f Hf.
    apply list_elem_of_In, elem_of_view in Hf as [Hf Hw].
    apply elem_of_app in Hf as [Hf|Hf].
    + apply Hout in Hf. congruence.
    + destruct (created_in_window _ _ _ _ _ _ Hall Hf)
        as (_ & hist' & cal' & Hid & Hsub).
      unfold shares_id. rewrite Hid, new_id_fresh; [done|by apply Hsub].
Qed.



End Provider.

(** X15. With no outage, two calendars that exist, the availability
    calendar not being "primary", listed mirror events that are events of
    the calendar and carry pairwise distinct string identifiers, and busy
    listed source events whose start and end are dictionaries, the whole
    cycle completes: the entry point returns [None].  Nothing is asked of
    the provider's window or ordering. *)
Lemma cycle_completes now end_time s src cal :
  AVAILABILITY_CALENDAR_ID ≠ "primary" →
  quiet s →
  calendars s !! "primary" = Some src →
  calendars s !! AVAILABILITY_CALENDAR_ID = Some cal →
  NoDup (map ident (view now end_time cal)) →
  Forall (λ e, e ∈ cal ∧ ∃ i, e !! "id" = Some (VStr i))
    (view now end_time cal) →
  Forall (λ e, busy e →
               ∃ ds de, e !! "start" = Some (VDict ds)
                        ∧ e !! "end" = Some (VDict de))
    (view now end_time src) →
  ∃ s', main now end_time s = (Return VNone, s').
Proof.
  intros Hne Hq Hsrc Hcal Hnd Hids Hall.
  destruct (delete_all_completes now end_time s cal Hq Hcal Hnd Hids)
    as [s1 Hd].
  assert (quiet s1) as Hq1.
  { pose proof Hd as Hd'.
    apply obeys_delete_all in Hd' as (new & _ & _ & _ & Hout & _).
    unfold quiet. rewrite Hout. by apply Forall_drop. }
  pose proof Hd as Hd'.
  apply delete_all_Return in Hd' as (cal' & Hcal' & _ & _ & _ & Hc).
  destruct (sync_completes now end_time s1 src
              (survivors (view now end_time cal') cal') Hq1) as [s2 Hs].
  { by rewrite Hc, lookup_insert_ne. }
  { rewrite Hc. apply lookup_insert_eq. }
  { eapply Forall_impl; [exact Hall|]. intros e He Hb.
    destruct (He Hb) as (ds & de & Hs & Hen).
    unfold interval, dateTime_or_date, Py.subscript. rewrite Hs, Hen.
    simpl. by eexists. }
  exists s2. unfold main, bind. by rewrite Hd, Hs.
Qed.

(** ** Further properties of the script *)

(** *** One function at a time *)

(** X1. [get_all_events] is a read: in any run it attempts exactly one list
    request, with the arguments it was given, and leaves every calendar as
    it was; when the request is accepted it returns the provider's listing
    of that calendar, and when it is refused it raises the provider's
    error. *)
Theorem get_all_events_only_reads cid tmin tmax s r s' :
  get_all_events cid tmin tmax s = (r, s') →
  calendars s' = calendars s
  ∧ ∃ ok,
      issued s s' = [(EventsList cid tmin tmax, ok)]
      ∧ (ok = true →
         ∃ cal, calendars s !! cid = Some cal
                ∧ r = Return (by_start
                                (filter (λ e, in_window tmin tmax e) cal)))
      ∧ (ok = false → r = Raise HttpError).
Proof.
  intros H. apply get_all_events_inv in H
    as [(cal & Hcal & -> & Hc & Ht)|(-> & Hc & Ht)].
  - split; [done|]. exists true. split; [by apply issued_app|].
    split; [|done]. intros _. by exists cal.
  - split; [done|]. exists false. split; [by apply issued_app|]. done.
Qed.

(** X2. [create_busy_event] attempts exactly one insert, always into the
    configured availability calendar: accepted, the calendar gains the
    dictionary under a new identifier, as its last event, and the function
    returns [None]; refused, nothing changes and the provider's error is
    raised.  No second attempt is made. *)
Theorem create_busy_event_inserts_once a b s r s' :
  create_busy_event a b s = (r, s') →
  ∃ ok,
    issued s s'
    = [(EventsInsert AVAILABILITY_CALENDAR_ID (busy_event a b), ok)]
    ∧ (ok = true →
       r = Return VNone
       ∧ ∃ cal,
           calendars s !! AVAILABILITY_CALENDAR_ID = Some cal
           ∧ calendars s'
             = <[AVAILABILITY_CALENDAR_ID :=
                   cal ++ [<["id" := VStr (new_id (trace s) cal)]>
                             (busy_event a b)]]> (calendars s))
    ∧ (ok = false → r = Raise HttpError ∧ calendars s' = calendars s).
Proof.
  intros H. destruct r as [v|e].
  - apply create_busy_event_Return in H as (-> & Ht & cal & Hcal & Hc).
    exists true. split; [by apply issued_app|]. split; [|done].
    intros _. split; [done|]. by exists cal.
  - apply bind_inv in H as [(resp & s1 & _ & [=])|(e' & He & [= ->])].
    apply execute_inv in He
      as [_ [(? & ? & _ & _ & [=] & _)|(_ & [= ->] & Hc & Ht)]].
    exists false. split; [by apply issued_app|]. done.
Qed.

(** *** What the two sweeps do to the calendars, in any run *)

Lemma replay_deletes hist new : ∀ cals cal,
  Forall (λ cb, list_on AVAILABILITY_CALENDAR_ID cb.1
                ∨ delete_on AVAILABILITY_CALENDAR_ID cb.1) new →
  cals !! AVAILABILITY_CALENDAR_ID = Some cal →
  ∃ cal',
    replay hist new cals !! AVAILABILITY_CALENDAR_ID = Some cal'
    ∧ cal' `sublist_of` cal
    ∧ ∀ k, k ≠ AVAILABILITY_CALENDAR_ID → replay hist new cals !! k = cals !! k.
Proof.
  revert hist. induction new as [|[c ok] new IH]; intros hist cals cal Hnew Hcal.
  - by exists cal.
  - inversion Hnew as [|?? Hc Hrest]; subst. simpl in Hc. simpl.
    assert (∃ cal1, (if ok then
                       match provider hist c cals with
                       | Some (cals', _) => cals'
                       | None => cals
                       end
                     else cals) !! AVAILABILITY_CALENDAR_ID = Some cal1
                    ∧ cal1 `sublist_of` cal
                    ∧ ∀ k, k ≠ AVAILABILITY_CALENDAR_ID →
                           (if ok then
                              match provider hist c cals with
                              | Some (cals', _) => cals'
                              | None => cals
                              end
                            else cals) !! k = cals !! k)
      as (cal1 & Hcal1 & Hsub1 & Hframe1).
    { destruct ok; [|by exists cal].
      destruct Hc as [(tmin & tmax & ->)|(i & ->)]; simpl.
      - rewrite Hcal. by exists cal.
      - destruct i as [|i| | | |]; try by exists cal.
        rewrite Hcal. destruct (existsb (has_id i) cal); [|by exists cal].
        eexists. split; [apply lookup_insert_eq|].
        split; [apply sublist_filter|].
        intros k Hk. by rewrite lookup_insert_ne. }
    destruct (IH (hist ++ [(c, ok)]) _ cal1 Hrest Hcal1)
      as (cal' & Hcal' & Hsub & Hframe).
    exists cal'. split; [done|]. split; [by etrans|].
    intros k Hk. by rewrite Hframe, Hframe1.
Qed.

(** X3. In any run, completed or aborted, [delete_all_availability_events]
    only lists and deletes in the availability calendar: it attempts no
    insert, what that calendar holds afterwards is a sub-list of what it
    held (events are removed, never added, changed or reordered), and no
    other calendar is touched. *)
Theorem clear_only_removes tmin tmax s r s' cal :
  delete_all_availability_events tmin tmax s = (r, s') →
  calendars s !! AVAILABILITY_CALENDAR_ID = Some cal →
  Forall (λ cb, list_on AVAILABILITY_CALENDAR_ID cb.1
                ∨ delete_on AVAILABILITY_CALENDAR_ID cb.1) (issued s s')
  ∧ (∃ cal', calendars s' !! AVAILABILITY_CALENDAR_ID = Some cal'
             ∧ cal' `sublist_of` cal)
  ∧ ∀ k, k ≠ AVAILABILITY_CALENDAR_ID → calendars s' !! k = calendars s !! k.
Proof.
  intros H Hcal.
  apply obeys_delete_all in H as (new & Ht & Hnew & _ & _ & Hc).
  rewrite (issued_app _ _ _ Ht). split; [done|].
  destruct (replay_deletes (trace s) new _ cal Hnew Hcal)
    as (cal' & Hcal' & Hsub & Hframe).
  rewrite Hc. split; [by exists cal'|done].
Qed.

Lemma replay_inserts cid hist new : ∀ cals cal,
  Forall (λ cb, list_on cid cb.1 ∨ insert_busy cb.1) new →
  cals !! AVAILABILITY_CALENDAR_ID = Some cal →
  ∃ added,
    replay hist new cals !! AVAILABILITY_CALENDAR_ID = Some (cal ++ added)
    ∧ length added = insertions new
    ∧ Forall stored_busy added.
Proof.
  revert hist. induction new as [|[c ok] new IH]; intros hist cals cal Hnew Hcal.
  - exists []. by rewrite app_nil_r.
  - inversion Hnew as [|?? Hc Hrest]; subst. simpl in Hc. simpl.
    unfold insertions. rewrite filter_cons_bool. fold (insertions new).
    destruct Hc as [(tmin & tmax & ->)|(a & b & ->)].
    + cbn [inserted fst].
      eapply IH; [done|]. destruct ok; [|done]. simpl.
      by destruct (cals !! cid).
    + cbn [inserted fst snd]. destruct ok.
      * simpl. rewrite Hcal.
        edestruct (IH (hist ++ [(EventsInsert AVAILABILITY_CALENDAR_ID
                                   (busy_event a b), true)]))
          as (added & Hadd & Hlen & Hshape);
          [done|apply lookup_insert_eq|].
        eexists (_ :: added). rewrite Hadd, <- app_assoc. simpl.
        split; [done|]. split; [by rewrite Hlen|].
        constructor; [|done]. by eexists a, b, _.
      * by eapply IH.
Qed.

(** X7. In any run, completed or aborted, [sync_availability] only adds to the
    availability calendar: what the calendar held is still there, in
    place, followed by one stored placeholder for each accepted insert. *)
Theorem sync_only_appends tmin tmax s r s' cal :
  sync_availability tmin tmax s = (r, s') →
  calendars s !! AVAILABILITY_CALENDAR_ID = Some cal →
  ∃ added,
    calendars s' !! AVAILABILITY_CALENDAR_ID = Some (cal ++ added)
    ∧ length added = insertions (issued s s')
    ∧ Forall stored_busy added.
Proof.
  intros H Hcal.
  apply obeys_sync in H as (new & Ht & Hnew & _ & _ & Hc).
  rewrite (issued_app _ _ _ Ht), Hc.
  by eapply replay_inserts.
Qed.

(** X13. The entry point runs two phases in order: the log of any run is a
    stretch of list and delete requests on the availability calendar
    followed by a stretch of list requests on "primary" and inserts, and
    the second stretch is empty unless every call of the first was
    accepted. *)
Theorem main_runs_clear_then_sync now end_time s r s' :
  main now end_time s = (r, s') →
  ∃ t1 t2,
    issued s s' = t1 ++ t2
    ∧ Forall (λ cb, list_on AVAILABILITY_CALENDAR_ID cb.1
                    ∨ delete_on AVAILABILITY_CALENDAR_ID cb.1) t1
    ∧ Forall (λ cb, list_on "primary" cb.1 ∨ insert_busy cb.1) t2
    ∧ (t2 ≠ [] → accepted t1).
Proof.
  intros H.
  apply bind_inv in H as [(v1 & s1 & Hd & H)|(e & Hd & ->)].
  - apply obeys_delete_all in Hd as (t1 & Ht1 & H1 & Ho1 & _).
    assert (obeys (λ c, list_on "primary" c ∨ insert_busy c)
              (sync_availability now end_time ;; ret VNone)) as Hs.
    { apply obeys_bind; [apply obeys_sync|intros; apply obeys_ret]. }
    apply Hs in H as (t2 & Ht2 & H2 & _).
    exists t1, t2. split; [apply issued_app; by rewrite Ht2, Ht1, app_assoc|].
    split; [done|]. split; [done|]. intros _.
    destruct Ho1 as [[? _]|(? & ? & _ & _ & [=])]. done.
  - apply obeys_delete_all in Hd as (t1 & Ht1 & H1 & _).
    exists t1, []. rewrite app_nil_r.
    split; [by apply issued_app|]. split; [done|]. split; [constructor|done].
Qed.


(** *** Which exceptions a sweep can raise, and where it stops *)

Lemma raises_only_bind {A B} E (m : M A) (k : A → M B) :
  raises_only E m → (∀ a, raises_only E (k a)) → raises_only E (bind m k).
Proof.
  intros Hm Hk s e s' H.
  apply bind_inv in H as [(a & s1 & _ & H)|(e' & H & [= ->])].
  - by eapply Hk.
  - by eapply Hm.
Qed.

Lemma raises_only_ret {A} E (a : A) : raises_only E (ret a).
Proof. by intros s e s' [=]. Qed.

Lemma raises_only_lift {A} (E : exn → Prop) (x : result A) :
  (∀ e, x = Raise e → E e) → raises_only E (lift x).
Proof. intros Hx s e s' [= -> _]. by apply Hx. Qed.

Lemma raises_only_execute (E : exn → Prop) c :
  E HttpError → raises_only E (execute c).
Proof.
  intros HE s e s' H.
  by apply execute_inv in H
    as [_ [(? & ? & _ & _ & [=] & _)|(_ & [= ->] & _)]].
Qed.

Lemma raises_only_for_each {A} E (l : list A) (body : A → M unit) :
  (∀ x, raises_only E (body x)) → raises_only E (for_each l body).
Proof.
  intros Hbody. induction l as [|x l IH]; simpl.
  - apply raises_only_ret.
  - apply raises_only_bind; [apply Hbody|by intros _].
Qed.

Lemma dateTime_or_date_raises e k x :
  dateTime_or_date e k = Raise x → x = KeyError k ∨ x = AttributeError.
Proof.
  unfold dateTime_or_date, Py.subscript.
  destruct (e !! k) as [v|]; [|intros [= <-]; by left].
  destruct v; simpl; intros [= <-]; by right.
Qed.

(** X8. [sync_availability] can fail in four ways only: the provider's error,
    a [KeyError] for "start" or for "end", or an [AttributeError] when one
    of the two is not a dictionary.  It never raises a [TypeError], and no
    other key is ever missed. *)
Theorem sync_exceptions tmin tmax s e s' :
  sync_availability tmin tmax s = (Raise e, s') →
  e = HttpError ∨ e = KeyError "start" ∨ e = KeyError "end"
  ∨ e = AttributeError.
Proof.
  revert s e s'.
  change (raises_only
            (λ e, e = HttpError ∨ e = KeyError "start" ∨ e = KeyError "end"
                  ∨ e = AttributeError)
            (sync_availability tmin tmax)).
  apply raises_only_bind.
  { apply raises_only_bind; [apply raises_only_execute; tauto|].
    intros; apply raises_only_ret. }
  intros evs. apply raises_only_bind; [|intros; apply raises_only_ret].
  apply raises_only_for_each. intros x.
  destruct (busy x); [|apply raises_only_ret].
  apply raises_only_bind.
  { apply raises_only_lift. intros e He.
    apply dateTime_or_date_raises in He. tauto. }
  intros a. apply raises_only_bind.
  { apply raises_only_lift. intros e He.
    apply dateTime_or_date_raises in He. tauto. }
  intros b. apply raises_only_bind; [|intros; apply raises_only_ret].
  apply raises_only_bind; [apply raises_only_execute; tauto|].
  intros; apply raises_only_ret.
Qed.

Lemma events_delete_Raise cid v e :
  events_delete cid v = Raise e → e = TypeError ∧ v = VNone.
Proof. destruct v; simpl; by intros [= <-]. Qed.

Lemma delete_sweep_Raise l : ∀ s e s' cal,
  for_each l
    (λ event,
      event_id <- lift (Py.subscript event "id") ;;
      request <- lift (events_delete AVAILABILITY_CALENDAR_ID event_id) ;;
      execute request ;;
      ret tt) s = (Raise e, s') →
  calendars s !! AVAILABILITY_CALENDAR_ID = Some cal →
  ∃ pre x post,
    l = pre ++ x :: post
    ∧ calendars s'
      = <[AVAILABILITY_CALENDAR_ID := survivors pre cal]> (calendars s)
    ∧ ((e = KeyError "id" ∧ x !! "id" = None
        ∧ trace s'
          = trace s
            ++ map (λ e, (EventsDelete AVAILABILITY_CALENDAR_ID (ident e),
                          true)) pre)
       ∨ (e = TypeError ∧ x !! "id" = Some VNone
          ∧ trace s'
            = trace s
              ++ map (λ e, (EventsDelete AVAILABILITY_CALENDAR_ID (ident e),
                            true)) pre)
       ∨ (e = HttpError
          ∧ trace s'
            = trace s
              ++ map (λ e, (EventsDelete AVAILABILITY_CALENDAR_ID (ident e),
                            true)) pre
              ++ [(EventsDelete AVAILABILITY_CALENDAR_ID (ident x),
                   false)])).
Proof.
  induction l as [|x l IH]; intros s e s' cal H Hcal; simpl in H; [done|].
  apply bind_inv in H as [(u & s1 & Hx & Hrest)|(e' & Hx & [= ->])].
  - apply bind_inv in Hx as [(v & s0 & Hv & Hx)|(? & ? & ?)]; [|done].
    injection Hv as Hv <-.
    apply bind_inv in Hx as [(c & s0 & Hreq & Hx)|(? & ? & ?)]; [|done].
    injection Hreq as Hreq <-. apply events_delete_Return in Hreq as [-> _].
    apply bind_inv in Hx as [(resp & s2 & He & Hret)|(? & ? & ?)]; [|done].
    injection Hret as _ ->.
    apply execute_inv in He
      as [_ [(cals & resp' & Hp & _ & _ & Hc & Ht)|(_ & [=] & _)]].
    unfold Py.subscript in Hv.
    destruct (x !! "id") as [v'|] eqn:Hid; [|done]. injection Hv as ->.
    simpl in Hp. destruct v as [|i| | | |]; try done.
    rewrite Hcal in Hp.
    destruct (existsb (has_id i) cal); [|done]. injection Hp as <- _.
    destruct (IH s1 e s' (filter (λ e, negb (has_id i e)) cal) Hrest)
      as (pre & y & post & -> & Hc' & Hcase).
    { rewrite Hc. apply lookup_insert_eq. }
    exists (x :: pre), y, post. split; [done|]. split.
    { rewrite Hc', Hc, insert_insert_eq. by erewrite survivors_cons. }
    assert (ident x = VStr i) as Hix by (unfold ident; by rewrite Hid).
    destruct Hcase as [(-> & Hy & Ht')|[(-> & Hy & Ht')|(-> & Ht')]];
      [left|right; left|right; right];
      repeat (split; [done|]);
      rewrite Ht', Ht, <- app_assoc; simpl; by rewrite Hix.
  - exists [], x, l. split; [done|].
    rewrite survivors_nil.
    apply bind_inv in Hx as [(v & s0 & Hv & Hx)|(e1 & Hv & [= ->])].
    + injection Hv as Hv <-.
      assert (ident x = v) as Hix.
      { unfold ident. unfold Py.subscript in Hv.
        destruct (x !! "id"); [|done]. by injection Hv as ->. }
      apply bind_inv in Hx as [(c & s0 & Hreq & Hx)|(e2 & Hreq & [= ->])].
      * injection Hreq as Hreq <-.
        apply events_delete_Return in Hreq as [-> _].
        apply bind_inv in Hx as [(? & ? & _ & [=])|(e2 & He & [= ->])].
        apply execute_inv in He
          as [_ [(? & ? & _ & _ & [=] & _)|(_ & [= ->] & Hc & Ht)]].
        rewrite Hc, insert_id by done. split; [done|]. right. right.
        split; [done|]. by rewrite Ht, Hix.
      * injection Hreq as Hreq <-.
        apply events_delete_Raise in Hreq as [-> ->].
        rewrite insert_id by done. split; [done|]. right. left.
        split; [done|]. rewrite app_nil_r. split; [|done].
        unfold Py.subscript in Hv. destruct (x !! "id"); [|done].
        by injection Hv as ->.
    + injection Hv as Hv <-. rewrite insert_id by done.
      split; [done|]. left. unfold Py.subscript in Hv.
      destruct (x !! "id"); [done|]. injection Hv as <-.
      by rewrite app_nil_r.
Qed.

(** X4. When [delete_all_availability_events] fails after its list request
    was accepted, it fails at one listed event: the event has no "id"
    ([KeyError]), its "id" is [None] ([TypeError], raised by the client
    before anything is sent), or its delete was refused (the provider's
    error).  Exactly the listed events before it got an accepted delete,
    nothing was attempted after it, and the availability calendar then
    holds exactly the events that carry the identifier of none of those
    earlier events; no other calendar has changed.  No other exception is
    possible. *)
Theorem clear_stops_at_the_first_failure tmin tmax s e s' cal :
  delete_all_availability_events tmin tmax s = (Raise e, s') →
  calendars s !! AVAILABILITY_CALENDAR_ID = Some cal →
  head (outages s) ≠ Some true →
  ∃ pre x post cal',
    view tmin tmax cal = pre ++ x :: post
    ∧ calendars s' !! AVAILABILITY_CALENDAR_ID = Some cal'
    ∧ (∀ y, y ∈ cal' ↔ y ∈ cal ∧ ∀ f, f ∈ pre → shares_id f y = false)
    ∧ (∀ k, k ≠ AVAILABILITY_CALENDAR_ID →
            calendars s' !! k = calendars s !! k)
    ∧ ((e = KeyError "id" ∧ x !! "id" = None
        ∧ issued s s'
          = (EventsList AVAILABILITY_CALENDAR_ID (Some tmin) (Some tmax),
             true)
            :: map (λ e, (EventsDelete AVAILABILITY_CALENDAR_ID (ident e),
                          true)) pre)
       ∨ (e = TypeError ∧ x !! "id" = Some VNone
          ∧ issued s s'
            = (EventsList AVAILABILITY_CALENDAR_ID (Some tmin) (Some tmax),
               true)
              :: map (λ e, (EventsDelete AVAILABILITY_CALENDAR_ID (ident e),
                            true)) pre)
       ∨ (e = HttpError
          ∧ issued s s'
            = (EventsList AVAILABILITY_CALENDAR_ID (Some tmin) (Some tmax),
               true)
              :: map (λ e, (EventsDelete AVAILABILITY_CALENDAR_ID (ident e),
                            true)) pre
              ++ [(EventsDelete AVAILABILITY_CALENDAR_ID (ident x),
                   false)])).
Proof.
  intros H Hcal Hout.
  apply bind_inv in H as [(evs & s1 & Hl & H)|(e' & Hl & [= ->])].
  - apply get_all_events_inv in Hl
      as [(cal' & Hcal' & [= ->] & Hc & Ht)|([=] & _)].
    rewrite Hcal in Hcal'. injection Hcal' as <-.
    apply bind_inv in H as [(? & ? & _ & [=])|(e1 & Hloop & [= ->])].
    eapply delete_sweep_Raise in Hloop
      as (pre & x & post & Hview & Hc' & Hcase); [|by rewrite Hc].
    exists pre, x, post, (survivors pre cal). split; [done|].
    split; [rewrite Hc'; apply lookup_insert_eq|]. split.
    { intros y. unfold survivors. rewrite list_elem_of_filter.
      rewrite Is_true_true, forallb_forall. split.
      - intros [Hy ?]. split; [done|]. intros f Hf.
        apply negb_true_iff, Hy. by apply list_elem_of_In.
      - intros [? Hy]. split; [|done]. intros f Hf.
        apply negb_true_iff, Hy. by apply list_elem_of_In. }
    split; [intros k Hk; by rewrite Hc', lookup_insert_ne, Hc|].
    destruct Hcase as [(-> & Hx & Ht')|[(-> & Hx & Ht')|(-> & Ht')]];
      [left|right; left|right; right];
      repeat (split; [done|]);
      apply issued_app; rewrite Ht', Ht, <- app_assoc; done.
  - exfalso. apply bind_inv in Hl as [(? & ? & _ & [=])|(e1 & He & _)].
    apply execute_inv in He
      as [_ [(? & ? & _ & _ & [=] & _)|([Ho|Hp] & _)]]; [done|].
    simpl in Hp. by rewrite Hcal in Hp.
Qed.

(** *** Events whose times are missing or are not strings *)

Lemma overlap_test_TypeError a b start end_ :
  overlap_test a b start end_ = Raise TypeError ↔
  (∀ t, a ≠ VStr t)
  ∨ (∃ t, a = VStr t ∧ String.leb t end_ = true ∧ ∀ u, b ≠ VStr u).
Proof.
  unfold overlap_test, Py.le, Py.ge. split.
  - destruct a as [|t| | | |]; try (intros _; by left).
    destruct (String.leb t end_) eqn:Ht; [|done].
    destruct b; try done; intros _; right; exists t; by repeat split.
  - intros [Ha|(t & -> & -> & Hb)].
    + destruct a as [|t| | | |]; try done. by destruct (Ha t).
    + destruct b as [|u| | | |]; try done. by destruct (Hb u).
Qed.

Lemma overlap_test_Return a b start end_ o :
  overlap_test a b start end_ = Return o →
  ∃ t, a = VStr t ∧ (String.leb t end_ = true → ∃ u, b = VStr u).
Proof.
  unfold overlap_test, Py.le, Py.ge.
  destruct a as [|t| | | |]; try done. intros H. exists t. split; [done|].
  intros Ht. rewrite Ht in H. destruct b as [|u| | | |]; try done. by exists u.
Qed.

Lemma overlap_test_true a b start end_ :
  overlap_test a b start end_ = Return true →
  ∃ t u, a = VStr t ∧ b = VStr u
         ∧ String.leb t end_ = true ∧ String.leb start u = true.
Proof.
  unfold overlap_test, Py.le, Py.ge.
  destruct a as [|t| | | |]; try done.
  destruct (String.leb t end_) eqn:Ht; [|done].
  destruct b as [|u| | | |]; try done. intros [= Hu]. by exists t, u.
Qed.

Lemma overlap_sweep_times cid start end_ l : ∀ s r s',
  for_each l
    (λ event,
      event_start <- lift (dateTime_or_date event "start") ;;
      event_end <- lift (dateTime_or_date event "end") ;;
      overlapping <- lift (overlap_test event_start event_end start end_) ;;
      if (overlapping : bool) then
        event_id <- lift (Py.subscript event "id") ;;
        request <- lift (events_delete cid event_id) ;;
        execute request ;;
        ret tt
      else ret tt) s = (r, s') →
  (r = Return tt →
   Forall (λ e, ∃ t,
              time_of e "start" = VStr t
              ∧ (String.leb t end_ = true → ∃ u, time_of e "end" = VStr u)) l)
  ∧ (r = Raise TypeError →
     ∃ x,
       x ∈ l
       ∧ ((∀ t, time_of x "start" ≠ VStr t)
          ∨ (∃ t, time_of x "start" = VStr t ∧ String.leb t end_ = true
                  ∧ ∀ u, time_of x "end" ≠ VStr u)
          ∨ (∃ t u, time_of x "start" = VStr t ∧ time_of x "end" = VStr u
                    ∧ String.leb t end_ = true ∧ String.leb start u = true
                    ∧ x !! "id" = Some VNone))).
Proof.
  induction l as [|x l IH]; intros s r s' H; simpl in H.
  - injection H as <- _. split; [by constructor|done].
  - apply bind_inv in H as [(u & s1 & Hx & Hrest)|(e & Hx & ->)].
    + destruct (IH _ _ _ Hrest) as [IHr IHt].
      apply bind_inv in Hx as [(a & s0 & Ha & Hx)|(? & ? & ?)]; [|done].
      injection Ha as Ha <-.
      apply bind_inv in Hx as [(b & s0 & Hb & Hx)|(? & ? & ?)]; [|done].
      injection Hb as Hb <-.
      apply bind_inv in Hx as [(o & s0 & Ho & Hx)|(? & ? & ?)]; [|done].
      injection Ho as Ho <-.
      apply dateTime_or_date_time_of in Ha, Hb. subst a b.
      apply overlap_test_Return in Ho as (t & Ht & Hu).
      split.
      * intros Hr. constructor; [|by apply IHr]. by exists t.
      * intros Hr. destruct (IHt Hr) as (y & Hy & ?).
        exists y. split; [by right|done].
    + split; [done|]. intros [= ->].
      apply bind_inv in Hx as [(a & s0 & Ha & Hx)|(e & Ha & [= He])].
      2:{ injection Ha as Ha _. subst e.
          by apply dateTime_or_date_raises in Ha as [|]. }
      injection Ha as Ha <-.
      apply bind_inv in Hx as [(b & s0 & Hb & Hx)|(e & Hb & [= He])].
      2:{ injection Hb as Hb _. subst e.
          by apply dateTime_or_date_raises in Hb as [|]. }
      injection Hb as Hb <-.
      apply dateTime_or_date_time_of in Ha, Hb. subst a b.
      exists x. split; [by left|].
      apply bind_inv in Hx as [(o & s0 & Ho & Hx)|(e & Ho & [= He])].
      * injection Ho as Ho <-. destruct o; [|done].
        apply overlap_test_true in Ho as (t & u & Ht & Hu & Hle1 & Hle2).
        right. right. exists t, u. repeat (split; [done|]).
        apply bind_inv in Hx as [(i & s0 & Hi & Hx)|(e & Hi & [= He])].
        -- injection Hi as Hi <-.
           apply bind_inv in Hx
             as [(c & s0 & Hreq & Hx)|(e & Hreq & [= He])].
           ++ injection Hreq as Hreq <-.
              apply bind_inv in Hx as [(? & ? & _ & [=])|(e & He & [= He'])].
              subst e.
              by apply execute_inv in He
                as [_ [(? & ? & _ & _ & [=] & _)|(_ & [=] & _)]].
           ++ injection Hreq as Hreq _. subst e.
              apply events_delete_Raise in Hreq as [_ ->].
              unfold Py.subscript in Hi.
              destruct (x !! "id"); [|done]. by injection Hi as ->.
        -- injection Hi as Hi _. subst e. unfold Py.subscript in Hi.
           by destruct (x !! "id").
      * injection Ho as Ho _. subst e.
        apply overlap_test_TypeError in Ho as [Ho|Ho]; [by left|].
        right. by left.
Qed.

(** X12. [delete_overlapping_events] compares times as strings and guards
    nothing.  It completes only if every listed event has a string for its
    start ([dateTime], or [date] when there is none) and, whenever that
    start is at most the window's end, a string for its end too.  It
    raises [TypeError] only at a listed event whose start is not a string
    (as when the event has neither [dateTime] nor [date]), or whose start
    passes the first comparison while its end is not a string, or which
    passes both comparisons and has [None] for its "id".  An end that is
    not a string does no harm behind a start that already fails the first
    comparison. *)
Theorem overlap_clear_needs_string_times cid start end_ s r s' cal :
  delete_overlapping_events cid start end_ s = (r, s') →
  calendars s !! cid = Some cal →
  (∀ v, r = Return v →
     Forall (λ e, ∃ t,
                time_of e "start" = VStr t
                ∧ (String.leb t end_ = true
                   → ∃ u, time_of e "end" = VStr u))
       (view start end_ cal))
  ∧ (r = Raise TypeError →
     ∃ x,
       x ∈ view start end_ cal
       ∧ ((∀ t, time_of x "start" ≠ VStr t)
          ∨ (∃ t, time_of x "start" = VStr t ∧ String.leb t end_ = true
                  ∧ ∀ u, time_of x "end" ≠ VStr u)
          ∨ (∃ t u, time_of x "start" = VStr t ∧ time_of x "end" = VStr u
                    ∧ String.leb t end_ = true ∧ String.leb start u = true
                    ∧ x !! "id" = Some VNone))).
Proof.
  intros H Hcal.
  apply bind_inv in H as [(evs & s1 & Hl & H)|(e & Hl & ->)].
  - apply get_all_events_inv in Hl
      as [(cal' & Hcal' & [= ->] & _)|([=] & _)].
    rewrite Hcal in Hcal'. injection Hcal' as <-.
    apply bind_inv in H as [([] & s2 & Hloop & Hret)|(e & Hloop & ->)].
    + injection Hret as <- _.
      apply overlap_sweep_times in Hloop as [Hr _].
      split; [intros _ _; by apply Hr|done].
    + apply overlap_sweep_times in Hloop as [_ Ht].
      split; [done|]. intros [= ->]. by apply Ht.
  - split; [done|]. intros [= ->].
    by apply get_all_events_inv in Hl as [(? & _ & [=] & _)|([=] & _)].
Qed.

(** X9. [sync_availability] does not guard against an event without times
    either, but it fails differently: a fetched event that is not
    transparent and whose start and end dictionaries hold neither
    [dateTime] nor [date] is, in a completed run, sent to the provider all
    the same, with [None] as both [dateTime] values. *)
Theorem untimed_event_is_mirrored_with_None
    tmin tmax s v s' src e ds de :
  sync_availability tmin tmax s = (Return v, s') →
  calendars s !! "primary" = Some src →
  e ∈ view tmin tmax src →
  e !! "transparency" ≠ Some (VStr "transparent") →
  e !! "start" = Some (VDict ds) →
  ds !! "dateTime" = None → ds !! "date" = None →
  e !! "end" = Some (VDict de) →
  de !! "dateTime" = None → de !! "date" = None →
  (EventsInsert AVAILABILITY_CALENDAR_ID (busy_event VNone VNone), true)
    ∈ issued s s'.
Proof.
  intros H Hsrc He Hbusy Hs Hs1 Hs2 Hen He1 He2.
  apply sync_Return in H as (src' & Hsrc' & _ & Ht & _).
  rewrite Hsrc in Hsrc'. injection Hsrc' as <-.
  rewrite (issued_app _ _ _ Ht). right.
  assert (placeholder e = busy_event VNone VNone) as <-.
  { unfold placeholder, effective, dateTime_or_date, Py.subscript.
    rewrite Hs, Hen. simpl. by rewrite Hs1, Hs2, He1, He2. }
  apply (list_elem_of_fmap_2
           (λ e, (EventsInsert AVAILABILITY_CALENDAR_ID (placeholder e),
                  true))).
  apply list_elem_of_filter. split; [|done].
  apply Is_true_true. by apply busy_spec.
Qed.

Lemma create_sweep_all_free l s :
  Forall (λ e, busy e = false) l →
  for_each l
    (λ event,
      if busy event then
        start <- lift (dateTime_or_date event "start") ;;
        end_ <- lift (dateTime_or_date event "end") ;;
        create_busy_event start end_ ;;
        ret tt
      else ret tt) s = (Return tt, s).
Proof.
  induction 1 as [|x l Hx _ IH]; [done|]. simpl. by rewrite Hx.
Qed.

(** X10. The transparency test comes first: when every event the source shows
    in the window is marked "transparent", [sync_availability] reads
    nothing else off them, so it cannot fail on a malformed one; it makes
    its list request and nothing more, changes no calendar, and returns
    [None] if that request was accepted. *)
Theorem free_events_are_skipped_unread tmin tmax s r s' src :
  sync_availability tmin tmax s = (r, s') →
  calendars s !! "primary" = Some src →
  Forall (λ e, e !! "transparency" = Some (VStr "transparent"))
    (view tmin tmax src) →
  calendars s' = calendars s
  ∧ ∃ ok,
      issued s s' = [(EventsList "primary" (Some tmin) (Some tmax), ok)]
      ∧ (ok = true → r = Return VNone)
      ∧ (ok = false → r = Raise HttpError).
Proof.
  intros H Hsrc Hfree.
  apply bind_inv in H as [(evs & s1 & Hl & H)|(e & Hl & ->)].
  - apply get_all_events_inv in Hl
      as [(src' & Hsrc' & [= ->] & Hc & Ht)|([=] & _)].
    rewrite Hsrc in Hsrc'. injection Hsrc' as <-.
    unfold bind, tqdm in H. rewrite create_sweep_all_free in H.
    + injection H as <- <-. split; [done|]. exists true.
      split; [by apply issued_app|done].
    + eapply Forall_impl; [exact Hfree|]. intros e He. simpl in He.
      destruct (busy e) eqn:Hb; [|done]. by apply busy_spec in Hb.
  - apply get_all_events_inv in Hl
      as [(? & _ & [=] & _)|([= ->] & Hc & Ht)].
    split; [done|]. exists false. split; [by apply issued_app|done].
Qed.


(** *** The window after a clear, and a sync without a clear *)

(** X5. A completed clear leaves nothing in the window: with a provider whose
    ordering keeps every event, a list request over the same window
    would now show an empty availability calendar. *)
Theorem clear_empties_the_window tmin tmax s v s' :
  (∀ l, by_start l ≡ₚ l) →
  delete_all_availability_events tmin tmax s = (Return v, s') →
  ∃ cal', calendars s' !! AVAILABILITY_CALENDAR_ID = Some cal'
          ∧ view tmin tmax cal' = [].
Proof.
  intros Hperm H.
  apply delete_all_Return in H as (cal & Hcal & _ & _ & Hids & Hc).
  eexists. split; [rewrite Hc; apply lookup_insert_eq|].
  unfold view at 1. apply Permutation_nil_r. rewrite Hperm.
  rewrite filter_bool_none; [done|].
  intros e He. by eapply survivors_out_of_window.
Qed.

(** X6. A completed clear spares what it did not list: an event of the
    availability calendar that carries the identifier of no listed event
    is still in the calendar afterwards. *)
Theorem clear_spares_unlisted_events tmin tmax s v s' cal e :
  delete_all_availability_events tmin tmax s = (Return v, s') →
  calendars s !! AVAILABILITY_CALENDAR_ID = Some cal →
  e ∈ cal →
  (∀ f, f ∈ view tmin tmax cal → shares_id f e = false) →
  ∃ cal', calendars s' !! AVAILABILITY_CALENDAR_ID = Some cal' ∧ e ∈ cal'.
Proof.
  intros H Hcal He Hid.
  apply delete_all_Return in H as (cal0 & Hcal0 & _ & _ & _ & Hc).
  rewrite Hcal in Hcal0. injection Hcal0 as <-.
  eexists. split; [rewrite Hc; apply lookup_insert_eq|].
  unfold survivors. apply list_elem_of_filter. split; [|done].
  apply Is_true_true, forallb_forall. intros f Hf.
  apply list_elem_of_In in Hf. by rewrite Hid.
Qed.

(** X11. [sync_availability] does not look at what the availability calendar
    already holds: run twice in a row without a clear in between, on an
    unchanged source, it stores the same placeholders a second time behind
    the first ones. *)
Theorem sync_without_clear_duplicates tmin tmax s v1 s1 v2 s2 src cal :
  AVAILABILITY_CALENDAR_ID ≠ "primary" →
  sync_availability tmin tmax s = (Return v1, s1) →
  sync_availability tmin tmax s1 = (Return v2, s2) →
  calendars s !! "primary" = Some src →
  calendars s !! AVAILABILITY_CALENDAR_ID = Some cal →
  ∃ first second,
    calendars s1 !! AVAILABILITY_CALENDAR_ID = Some (cal ++ first)
    ∧ calendars s2 !! AVAILABILITY_CALENDAR_ID = Some (cal ++ first ++ second)
    ∧ map without_id first
      = map placeholder (filter (λ e, busy e) (view tmin tmax src))
    ∧ map without_id second = map without_id first.
Proof.
  intros Hne H1 H2 Hsrc Hcal.
  apply sync_Return in H1 as (src1 & Hsrc1 & _ & _ & _ & Hc1).
  rewrite Hsrc in Hsrc1. injection Hsrc1 as <-.
  specialize (Hc1 cal Hcal).
  apply sync_Return in H2 as (src2 & Hsrc2 & _ & _ & _ & Hc2).
  rewrite Hc1, lookup_insert_ne, Hsrc in Hsrc2 by done.
  injection Hsrc2 as <-.
  erewrite Hc2; [|rewrite Hc1; apply lookup_insert_eq].
  assert (Forall (λ b : Event, b !! "id" = None)
            (map placeholder (filter (λ e, busy e) (view tmin tmax src))))
    as Hno.
  { apply Forall_forall. intros b Hb.
    apply list_elem_of_In, in_map_iff in Hb as (e & <- & _).
    apply placeholder_no_id. }
  eexists _, _. split; [rewrite Hc1; apply lookup_insert_eq|].
  split; [rewrite lookup_insert_eq, <- app_assoc; done|].
  by rewrite !stamp_strip.
Qed.

(** X14. A window in which neither calendar shows anything: with no outage
    the cycle completes after its two list requests, deletes nothing,
    creates nothing and leaves every calendar as it was. *)
Theorem empty_window_cycle now end_time s src cal :
  quiet s →
  calendars s !! "primary" = Some src →
  calendars s !! AVAILABILITY_CALENDAR_ID = Some cal →
  view now end_time cal = [] →
  view now end_time src = [] →
  ∃ s',
    main now end_time s = (Return VNone, s')
    ∧ calendars s' = calendars s
    ∧ issued s s'
      = [(EventsList AVAILABILITY_CALENDAR_ID (Some now) (Some end_time), true);
         (EventsList "primary" (Some now) (Some end_time), true)].
Proof.
  intros Hq Hsrc Hcal Hvc Hvs.
  destruct (delete_all_completes now end_time s cal Hq Hcal) as [s1 Hd];
    [rewrite Hvc; constructor|rewrite Hvc; constructor|].
  assert (quiet s1) as Hq1.
  { pose proof Hd as Hd'.
    apply obeys_delete_all in Hd' as (new & _ & _ & _ & Hout & _).
    unfold quiet. rewrite Hout. by apply Forall_drop. }
  pose proof Hd as Hd'.
  apply delete_all_Return in Hd' as (cal' & Hcal' & _ & Ht1 & _ & Hc1).
  rewrite Hcal in Hcal'. injection Hcal' as <-.
  rewrite Hvc, survivors_nil, insert_id in Hc1 by done.
  rewrite Hvc in Ht1. simpl in Ht1.
  destruct (sync_completes now end_time s1 src cal Hq1) as [s2 Hs];
    [by rewrite Hc1|by rewrite Hc1|rewrite Hvs; constructor|].
  pose proof Hs as Hs'.
  apply sync_Return in Hs' as (src' & Hsrc' & _ & Ht2 & _ & Hc2).
  rewrite Hc1, Hsrc in Hsrc'. injection Hsrc' as <-.
  rewrite Hvs in Ht2. simpl in Ht2.
  specialize (Hc2 cal). rewrite Hc1 in Hc2. specialize (Hc2 Hcal).
  rewrite Hvs in Hc2. simpl in Hc2.
  rewrite app_nil_r, insert_id in Hc2 by done.
  exists s2. split; [unfold main, bind; by rewrite Hd, Hs|].
  split; [done|].
  apply issued_app. by rewrite Ht2, Ht1, <- app_assoc.
Qed.


End Script.

(** ** The reference provider meets the provider hypotheses *)

Lemma place_perm e l : Reference.place e l ≡ₚ e :: l.
Proof.
  induction l as [|x l IH]; [done|]. simpl.
  destruct (Reference.earlier e x); [done|].
  rewrite IH. apply Permutation_swap.
Qed.

Lemma reference_by_start_perm l : Reference.by_start l ≡ₚ l.
Proof.
  unfold Reference.by_start. induction l as [|e l IH]; [done|].
  simpl. by rewrite place_perm, IH.
Qed.

Lemma reference_window_by_times tmin tmax (e e' : Event) :
  times e = times e' →
  Reference.in_window tmin tmax e = Reference.in_window tmin tmax e'.
Proof.
  unfold Reference.in_window, Reference.starts, Reference.ends, times.
  by intros [= -> ->].
Qed.

Lemma length_append (a b : string) :
  String.length (a +:+ b) = (String.length a + String.length b)%nat.
Proof. induction a as [|c a IH]; [done|]. simpl. by rewrite IH. Qed.

Lemma reference_ids_length n (cal : list Event) e :
  e ∈ cal →
  (String.length (Reference.id_of e)
   ≤ String.length
       (foldr (λ e acc, Reference.id_of e +:+ acc) (Reference.tally n) cal))%nat.
Proof.
  induction 1 as [e cal|e x cal _ IH]; simpl; rewrite length_append; lia.
Qed.

Lemma reference_new_id_fresh hist (cal : list Event) e :
  e ∈ cal → has_id (Reference.new_id hist cal) e = false.
Proof.
  intros He. unfold has_id.
  destruct (e !! "id") as [[|j| | | |]|] eqn:Hid; try done.
  apply String.eqb_neq. intros Heq.
  pose proof (reference_ids_length (length hist) cal e He) as Hlen.
  assert (Reference.id_of e = j) as Hj.
  { unfold Reference.id_of. by rewrite Hid. }
  rewrite Hj, <- Heq in Hlen. unfold Reference.new_id in Hlen.
  cbn [String.length] in Hlen. lia.
Qed.

(** ** The theorems at work on the sample calendars *)

Abbreviation clear :=
  (delete_all_availability_events Sample.mirror_id Reference.in_window
     Reference.by_start Reference.new_id Sample.now Sample.end_time).
Abbreviation clear_overlapping :=
  (delete_overlapping_events Reference.in_window Reference.by_start
     Reference.new_id Sample.mirror_id Sample.now Sample.end_time).
Abbreviation sync :=
  (sync_availability Sample.mirror_id Reference.in_window
     Reference.by_start Reference.new_id Sample.now Sample.end_time).
Abbreviation cycle :=
  (main Sample.mirror_id Reference.in_window Reference.by_start
     Reference.new_id Sample.now Sample.end_time).
Abbreviation shown :=
  (view Reference.in_window Reference.by_start Sample.now Sample.end_time).

(** The stale placeholder runs from 17:00 to 18:00 UTC, inside the window
    that opens at 16:30 UTC, so the provider lists it; its end, written with
    the offset -07:00, is nevertheless the smaller string.  The clear of the
    entry point deletes it. *)
Lemma clear_deletes_an_event_that_fails_the_overlap_test :
  let s := Sample.service [] [Sample.stale] [] in
  shown [Sample.stale] = [Sample.stale]
  ∧ interval Sample.stale
    = Some (VStr "2024-09-17T10:00:00-07:00", VStr "2024-09-17T11:00:00-07:00")
  ∧ String.leb Sample.now "2024-09-17T11:00:00-07:00" = false
  ∧ overlapping Sample.now Sample.end_time Sample.stale = false
  ∧ (clear s).1 = Return VNone
  ∧ issued s (clear s).2
    = [(EventsList Sample.mirror_id (Some Sample.now) (Some Sample.end_time),
        true);
       (EventsDelete Sample.mirror_id (VStr "b0"), true)]
  ∧ calendars (clear s).2 !! Sample.mirror_id = Some [].
Proof. vm_compute. repeat split; reflexivity. Qed.

(** One event deleted, one event created, and [None] returned both times. *)
Lemma sweeps_do_not_return_their_counts :
  let s := Sample.service [Sample.meeting] [Sample.stale] [] in
  (clear s).1 = Return VNone
  ∧ deletions (issued s (clear s).2) = 1
  ∧ (clear s).1 ≠ Return (VInt 1)
  ∧ (sync s).1 = Return VNone
  ∧ insertions (issued s (sync s).2) = 1
  ∧ (sync s).1 ≠ Return (VInt 1).
Proof. vm_compute. repeat split; try reflexivity; discriminate. Qed.

Lemma delete_all_deletes_every_listed_event_witness :
  let s := Sample.service [] [Sample.stale; Sample.dentist] [] in
  ∃ cal cal',
    calendars s !! Sample.mirror_id = Some cal
    ∧ calendars (clear s).2 !! Sample.mirror_id = Some cal'
    ∧ issued s (clear s).2
      = (EventsList Sample.mirror_id (Some Sample.now) (Some Sample.end_time),
         true)
        :: map (λ e, (EventsDelete Sample.mirror_id (ident e), true))
             (shown cal)
    ∧ ∀ e, e ∈ shown cal → e ∉ cal'.
Proof.
  intros s.
  apply (delete_all_deletes_every_listed_event Sample.mirror_id
           Reference.in_window Reference.by_start Reference.new_id
           Sample.now Sample.end_time s VNone).
  vm_compute. reflexivity.
Defined.

Lemma sweeps_return_None_witness :
  let s := Sample.service [Sample.lunch; Sample.meeting] [Sample.stale] [] in
  (clear s).1 = Return VNone ∧ (sync s).1 = Return VNone
  ∧ deletions (issued s (clear s).2) = 1
  ∧ insertions (issued s (sync s).2) = 1.
Proof.
  intros s.
  destruct (sweeps_return_None Sample.mirror_id Reference.in_window
              Reference.by_start Reference.new_id
              Sample.now Sample.end_time s (VNone) (clear s).2
              Sample.now Sample.end_time s (VNone) (sync s).2)
    as (_ & _ & (cal & Hcal & Hdel) & (src & Hsrc & Hins)).
  - vm_compute. reflexivity.
  - vm_compute. reflexivity.
  - injection Hcal as <-. injection Hsrc as <-.
    split; [vm_compute; reflexivity|]. split; [vm_compute; reflexivity|].
    split; [exact Hdel|exact Hins].
Defined.

Lemma sync_mirrors_exactly_the_busy_events_witness :
  let s :=
    Sample.service [Sample.lunch; Sample.meeting; Sample.holiday] [] [] in
  ∃ src,
    calendars s !! "primary" = Some src
    ∧ issued s (sync s).2
      = (EventsList "primary" (Some Sample.now) (Some Sample.end_time), true)
        :: map (λ e, (EventsInsert Sample.mirror_id (placeholder e), true))
             (filter (λ e, busy e) (shown src)).
Proof.
  intros s.
  refine (proj1 (proj2
    (sync_mirrors_exactly_the_busy_events Sample.mirror_id
       Reference.in_window Reference.by_start Reference.new_id
       Sample.now Sample.end_time s (Return VNone) (sync s).2 _))
    VNone eq_refl).
  vm_compute. reflexivity.
Defined.

Lemma mirror_event_shape_witness :
  let s := Sample.service [Sample.lunch; Sample.meeting] [] [] in
  let body := placeholder Sample.meeting in
  ∃ src e ds de,
    calendars s !! "primary" = Some src
    ∧ e ∈ shown src
    ∧ e !! "start" = Some (VDict ds)
    ∧ e !! "end" = Some (VDict de)
    ∧ dateTime_or_date e "start" = Return (effective e "start")
    ∧ dateTime_or_date e "end" = Return (effective e "end")
    ∧ Sample.mirror_id = Sample.mirror_id
    ∧ body !! "summary" = Some (VStr "Busy")
    ∧ body !! "start"
      = Some (VDict {[ "dateTime" := effective e "start";
                       "timeZone" := VStr "UTC" ]})
    ∧ body !! "end"
      = Some (VDict {[ "dateTime" := effective e "end";
                       "timeZone" := VStr "UTC" ]})
    ∧ body !! "start"
      = Some (VDict {[ "dateTime" :=
                         default (default VNone (ds !! "date"))
                           (ds !! "dateTime");
                       "timeZone" := VStr "UTC" ]})
    ∧ body !! "end"
      = Some (VDict {[ "dateTime" :=
                         default (default VNone (de !! "date"))
                           (de !! "dateTime");
                       "timeZone" := VStr "UTC" ]})
    ∧ (∀ t, ds !! "dateTime" = Some t →
            body !! "start"
            = Some (VDict {[ "dateTime" := t; "timeZone" := VStr "UTC" ]}))
    ∧ (∀ t, de !! "dateTime" = Some t →
            body !! "end"
            = Some (VDict {[ "dateTime" := t; "timeZone" := VStr "UTC" ]}))
    ∧ body !! "attendees" = None
    ∧ body !! "description" = None
    ∧ body !! "id" = None
    ∧ ∀ k, k ≠ "summary" → k ≠ "start" → k ≠ "end" → body !! k = None.
Proof.
  intros s body.
  apply (mirror_event_shape Sample.mirror_id Reference.in_window
           Reference.by_start Reference.new_id Sample.now Sample.end_time
           s (Return VNone) (sync s).2 Sample.mirror_id body true).
  - vm_compute. reflexivity.
  - apply list_elem_of_In. vm_compute. right. left. reflexivity.
Defined.

Lemma all_day_event_is_mirrored_witness :
  let s := Sample.service [Sample.meeting; Sample.holiday] [] [] in
  (EventsInsert Sample.mirror_id
     (busy_event (VStr "2024-09-18") (VStr "2024-09-19")), true)
    ∈ issued s (sync s).2
  ∧ busy_event (VStr "2024-09-18") (VStr "2024-09-19") !! "start"
    = Some (VDict {[ "dateTime" := VStr "2024-09-18";
                     "timeZone" := VStr "UTC" ]})
  ∧ busy_event (VStr "2024-09-18") (VStr "2024-09-19") !! "end"
    = Some (VDict {[ "dateTime" := VStr "2024-09-19";
                     "timeZone" := VStr "UTC" ]}).
Proof.
  intros s.
  apply (all_day_event_is_mirrored Sample.mirror_id Reference.in_window
           Reference.by_start Reference.new_id Sample.now Sample.end_time
           s VNone (sync s).2 [Sample.meeting; Sample.holiday] Sample.holiday
           {[ "date" := VStr "2024-09-18" ]} {[ "date" := VStr "2024-09-19" ]}).
  - vm_compute. reflexivity.
  - reflexivity.
  - apply list_elem_of_In. vm_compute. right. left. reflexivity.
  - vm_compute. discriminate.
  - reflexivity.
  - reflexivity.
  - reflexivity.
  - reflexivity.
  - reflexivity.
  - reflexivity.
Defined.

Lemma refused_call_aborts_the_run_witness :
  let s :=
    Sample.service [Sample.meeting] [Sample.stale; Sample.dentist]
      [false; false; true] in
  let pre :=
    [(EventsList Sample.mirror_id (Some Sample.now) (Some Sample.end_time),
      true);
     (EventsDelete Sample.mirror_id (VStr "b0"), true)] in
  (([] : list (Call * bool)) = []
   ∧ (cycle s).1 = Raise HttpError
   ∧ accepted pre
   ∧ calendars (cycle s).2
     = replay Reference.in_window Reference.by_start Reference.new_id
         (trace s) pre (calendars s))
  ∧ calendars (cycle s).2 !! Sample.mirror_id = Some [Sample.dentist]
  ∧ calendars (cycle s).2 !! "primary" = Some [Sample.meeting].
Proof.
  intros s pre. split; [|vm_compute; split; reflexivity].
  apply (refused_call_aborts_the_run Sample.mirror_id Reference.in_window
           Reference.by_start Reference.new_id Sample.now Sample.end_time
           s (cycle s).1 (cycle s).2 pre
           (EventsDelete Sample.mirror_id (VStr "d1")) []).
  - vm_compute. reflexivity.
  - vm_compute. reflexivity.
Defined.

Lemma sync_leaves_the_source_untouched_witness :
  let s := Sample.service [Sample.lunch; Sample.meeting] [Sample.stale] [] in
  calendars (sync s).2 !! "primary" = calendars s !! "primary"
  ∧ Forall (λ cb, list_on "primary" cb.1
                  ∨ ∃ body, cb.1 = EventsInsert Sample.mirror_id body)
      (issued s (sync s).2).
Proof.
  intros s.
  apply (sync_leaves_the_source_untouched Sample.mirror_id
           Reference.in_window Reference.by_start Reference.new_id
           Sample.now Sample.end_time s (sync s).1 (sync s).2).
  - discriminate.
  - vm_compute. reflexivity.
Defined.

Lemma overlap_test_only_in_unused_clear_witness :
  let s := Sample.service [] [Sample.stale; Sample.dentist] [] in
  issued s (clear_overlapping s).2
  = [(EventsList Sample.mirror_id (Some Sample.now) (Some Sample.end_time),
      true);
     (EventsDelete Sample.mirror_id (VStr "d1"), true)]
  ∧ issued s (clear s).2
    = [(EventsList Sample.mirror_id (Some Sample.now) (Some Sample.end_time),
        true);
       (EventsDelete Sample.mirror_id (VStr "b0"), true);
       (EventsDelete Sample.mirror_id (VStr "d1"), true)].
Proof.
  intros s.
  destruct (overlap_test_only_in_unused_clear Sample.mirror_id
              Reference.in_window Reference.by_start Reference.new_id
              Sample.mirror_id Sample.now Sample.end_time
              s VNone (clear_overlapping s).2
              Sample.now Sample.end_time s VNone (clear s).2)
    as ((cal & Hcal & Hsome) & _ & _ & _ & (cal0 & Hcal0 & Hall)).
  - vm_compute. reflexivity.
  - vm_compute. reflexivity.
  - injection Hcal as <-. injection Hcal0 as <-.
    rewrite Hsome, Hall. split; vm_compute; reflexivity.
Defined.



(** ** Where the design's invariant stops *)

(** The same cycle against a provider that answers a list request with a
    first page of one event, which is all the script ever reads. *)
Abbreviation paged_cycle :=
  (main Sample.mirror_id Reference.in_window (Reference.one_page 1)
     Reference.new_id Sample.now Sample.end_time).



(** ** The further properties at work on the sample calendars *)

Abbreviation fetch :=
  (get_all_events Reference.in_window Reference.by_start Reference.new_id).
Abbreviation lenient_sync :=
  (sync_availability Sample.mirror_id Reference.lenient
     Reference.by_start Reference.new_id Sample.now Sample.end_time).
Abbreviation lenient_clear_overlapping :=
  (delete_overlapping_events Reference.lenient Reference.by_start
     Reference.new_id Sample.mirror_id Sample.now Sample.end_time).
Abbreviation lenient_shown :=
  (view Reference.lenient Reference.by_start Sample.now Sample.end_time).

Lemma get_all_events_only_reads_witness :
  let s := Sample.service [Sample.lunch; Sample.meeting] [Sample.stale] [] in
  let run := fetch "primary" (Some Sample.now) None s in
  calendars run.2 = calendars s
  ∧ ∃ ok,
      issued s run.2 = [(EventsList "primary" (Some Sample.now) None, ok)]
      ∧ (ok = true →
         ∃ cal, calendars s !! "primary" = Some cal
                ∧ run.1
                  = Return (Reference.by_start
                              (filter (λ e, Reference.in_window
                                              (Some Sample.now) None e) cal)))
      ∧ (ok = false → run.1 = Raise HttpError).
Proof.
  intros s run.
  apply (get_all_events_only_reads Reference.in_window Reference.by_start
           Reference.new_id "primary" (Some Sample.now) None s run.1 run.2).
  apply surjective_pairing.
Defined.

Lemma create_busy_event_inserts_once_witness :
  let s := Sample.service [] [Sample.stale] [] in
  let a := VStr "2024-09-20T09:00:00Z" in
  let b := VStr "2024-09-20T10:00:00Z" in
  let run :=
    create_busy_event Sample.mirror_id Reference.in_window
      Reference.by_start Reference.new_id a b s in
  ∃ ok,
    issued s run.2 = [(EventsInsert Sample.mirror_id (busy_event a b), ok)]
    ∧ (ok = true →
       run.1 = Return VNone
       ∧ ∃ cal,
           calendars s !! Sample.mirror_id = Some cal
           ∧ calendars run.2
             = <[Sample.mirror_id :=
                   cal ++ [<["id" := VStr (Reference.new_id (trace s) cal)]>
                             (busy_event a b)]]> (calendars s))
    ∧ (ok = false → run.1 = Raise HttpError ∧ calendars run.2 = calendars s).
Proof.
  intros s a b run.
  apply (create_busy_event_inserts_once Sample.mirror_id Reference.in_window
           Reference.by_start Reference.new_id a b s run.1 run.2).
  apply surjective_pairing.
Defined.

Lemma clear_only_removes_witness :
  let s :=
    Sample.service [Sample.meeting]
      [Sample.stale; Sample.later; Sample.dentist] [false; false; true] in
  Forall (λ cb, list_on Sample.mirror_id cb.1 ∨ delete_on Sample.mirror_id cb.1)
    (issued s (clear s).2)
  ∧ (∃ cal', calendars (clear s).2 !! Sample.mirror_id = Some cal'
             ∧ cal' `sublist_of` [Sample.stale; Sample.later; Sample.dentist])
  ∧ ∀ k, k ≠ Sample.mirror_id →
         calendars (clear s).2 !! k = calendars s !! k.
Proof.
  intros s.
  apply (clear_only_removes Sample.mirror_id Reference.in_window
           Reference.by_start Reference.new_id Sample.now Sample.end_time
           s (clear s).1 (clear s).2).
  - apply surjective_pairing.
  - reflexivity.
Defined.

Lemma sync_only_appends_witness :
  let s :=
    Sample.service [Sample.meeting; Sample.holiday] [Sample.stale]
      [false; false; true] in
  ∃ added,
    calendars (sync s).2 !! Sample.mirror_id = Some ([Sample.stale] ++ added)
    ∧ length added = insertions (issued s (sync s).2)
    ∧ Forall stored_busy added.
Proof.
  intros s.
  apply (sync_only_appends Sample.mirror_id Reference.in_window
           Reference.by_start Reference.new_id Sample.now Sample.end_time
           s (sync s).1 (sync s).2).
  - apply surjective_pairing.
  - reflexivity.
Defined.

Lemma main_runs_clear_then_sync_witness :
  let s :=
    Sample.service [Sample.lunch; Sample.meeting]
      [Sample.stale; Sample.dentist] [] in
  ∃ t1 t2,
    issued s (cycle s).2 = t1 ++ t2
    ∧ Forall (λ cb, list_on Sample.mirror_id cb.1
                    ∨ delete_on Sample.mirror_id cb.1) t1
    ∧ Forall (λ cb, list_on "primary" cb.1 ∨ insert_busy Sample.mirror_id cb.1)
        t2
    ∧ (t2 ≠ [] → accepted t1).
Proof.
  intros s.
  apply (main_runs_clear_then_sync Sample.mirror_id Reference.in_window
           Reference.by_start Reference.new_id Sample.now Sample.end_time
           s (cycle s).1 (cycle s).2).
  apply surjective_pairing.
Defined.

Lemma sync_exceptions_witness :
  let s := Sample.service [Sample.meeting; Sample.headless] [] [] in
  (lenient_sync s).1 = Raise (KeyError "start")
  ∧ (KeyError "start" = HttpError ∨ KeyError "start" = KeyError "start"
     ∨ KeyError "start" = KeyError "end" ∨ KeyError "start" = AttributeError).
Proof.
  intros s. split; [vm_compute; reflexivity|].
  apply (sync_exceptions Sample.mirror_id Reference.lenient
           Reference.by_start Reference.new_id Sample.now Sample.end_time
           s (KeyError "start") (lenient_sync s).2).
  vm_compute. reflexivity.
Defined.

Lemma clear_stops_at_the_first_failure_witness :
  let s :=
    Sample.service [] [Sample.stale; Sample.unnamed; Sample.friday] [] in
  let listing :=
    (EventsList Sample.mirror_id (Some Sample.now) (Some Sample.end_time),
     true) in
  ∃ pre x post cal',
    shown [Sample.stale; Sample.unnamed; Sample.friday] = pre ++ x :: post
    ∧ calendars (clear s).2 !! Sample.mirror_id = Some cal'
    ∧ (∀ y, y ∈ cal'
            ↔ y ∈ [Sample.stale; Sample.unnamed; Sample.friday]
              ∧ ∀ f, f ∈ pre → shares_id f y = false)
    ∧ (∀ k, k ≠ Sample.mirror_id →
            calendars (clear s).2 !! k = calendars s !! k)
    ∧ ((TypeError = KeyError "id" ∧ x !! "id" = None
        ∧ issued s (clear s).2
          = listing
            :: map (λ e, (EventsDelete Sample.mirror_id (ident e), true)) pre)
       ∨ (TypeError = TypeError ∧ x !! "id" = Some VNone
          ∧ issued s (clear s).2
            = listing
              :: map (λ e, (EventsDelete Sample.mirror_id (ident e), true))
                   pre)
       ∨ (TypeError = HttpError
          ∧ issued s (clear s).2
            = listing
              :: map (λ e, (EventsDelete Sample.mirror_id (ident e), true))
                   pre
              ++ [(EventsDelete Sample.mirror_id (ident x), false)])).
Proof.
  intros s listing.
  apply (clear_stops_at_the_first_failure Sample.mirror_id
           Reference.in_window Reference.by_start Reference.new_id
           Sample.now Sample.end_time s TypeError (clear s).2).
  - vm_compute. reflexivity.
  - reflexivity.
  - discriminate.
Defined.

Lemma overlap_clear_needs_string_times_witness :
  let s := Sample.service [] [Sample.stale; Sample.untimed] [] in
  (lenient_clear_overlapping s).1 = Raise TypeError
  ∧ ∃ x,
      x ∈ lenient_shown [Sample.stale; Sample.untimed]
      ∧ ((∀ t, time_of x "start" ≠ VStr t)
         ∨ (∃ t, time_of x "start" = VStr t
                 ∧ String.leb t Sample.end_time = true
                 ∧ ∀ u, time_of x "end" ≠ VStr u)
         ∨ (∃ t u, time_of x "start" = VStr t ∧ time_of x "end" = VStr u
                   ∧ String.leb t Sample.end_time = true
                   ∧ String.leb Sample.now u = true
                   ∧ x !! "id" = Some VNone)).
Proof.
  intros s. split; [vm_compute; reflexivity|].
  refine (proj2
    (overlap_clear_needs_string_times Reference.lenient Reference.by_start
       Reference.new_id Sample.mirror_id Sample.now Sample.end_time
       s (Raise TypeError) (lenient_clear_overlapping s).2
       [Sample.stale; Sample.untimed] _ _) eq_refl).
  - vm_compute. reflexivity.
  - reflexivity.
Defined.

Lemma untimed_event_is_mirrored_with_None_witness :
  let s := Sample.service [Sample.meeting; Sample.untimed] [] [] in
  (EventsInsert Sample.mirror_id (busy_event VNone VNone), true)
    ∈ issued s (lenient_sync s).2.
Proof.
  intros s.
  apply (untimed_event_is_mirrored_with_None Sample.mirror_id
           Reference.lenient Reference.by_start Reference.new_id
           Sample.now Sample.end_time s VNone (lenient_sync s).2
           [Sample.meeting; Sample.untimed] Sample.untimed ∅ ∅).
  - vm_compute. reflexivity.
  - reflexivity.
  - apply list_elem_of_In. vm_compute. tauto.
  - vm_compute. discriminate.
  - reflexivity.
  - reflexivity.
  - reflexivity.
  - reflexivity.
  - reflexivity.
  - reflexivity.
Defined.

Lemma free_events_are_skipped_unread_witness :
  let s := Sample.service [Sample.headless_free; Sample.lunch] [] [] in
  calendars (lenient_sync s).2 = calendars s
  ∧ ∃ ok,
      issued s (lenient_sync s).2
      = [(EventsList "primary" (Some Sample.now) (Some Sample.end_time), ok)]
      ∧ (ok = true → (lenient_sync s).1 = Return VNone)
      ∧ (ok = false → (lenient_sync s).1 = Raise HttpError).
Proof.
  intros s.
  apply (free_events_are_skipped_unread Sample.mirror_id Reference.lenient
           Reference.by_start Reference.new_id Sample.now Sample.end_time
           s (lenient_sync s).1 (lenient_sync s).2
           [Sample.headless_free; Sample.lunch]).
  - apply surjective_pairing.
  - reflexivity.
  - vm_compute. repeat constructor.
Defined.

Lemma clear_empties_the_window_witness :
  let s :=
    Sample.service [] [Sample.stale; Sample.later; Sample.dentist] [] in
  ∃ cal', calendars (clear s).2 !! Sample.mirror_id = Some cal'
          ∧ shown cal' = [].
Proof.
  intros s.
  apply (clear_empties_the_window Sample.mirror_id Reference.in_window
           Reference.by_start Reference.new_id Sample.now Sample.end_time
           s VNone (clear s).2 reference_by_start_perm).
  vm_compute. reflexivity.
Defined.

Lemma clear_spares_unlisted_events_witness :
  let s :=
    Sample.service [] [Sample.stale; Sample.later; Sample.dentist] [] in
  ∃ cal', calendars (clear s).2 !! Sample.mirror_id = Some cal'
          ∧ Sample.later ∈ cal'.
Proof.
  intros s.
  apply (clear_spares_unlisted_events Sample.mirror_id Reference.in_window
           Reference.by_start Reference.new_id Sample.now Sample.end_time
           s VNone (clear s).2 [Sample.stale; Sample.later; Sample.dentist]).
  - vm_compute. reflexivity.
  - reflexivity.
  - apply list_elem_of_In. vm_compute. tauto.
  - intros f Hf. apply list_elem_of_In in Hf. vm_compute in Hf.
    destruct Hf as [<-|[<-|[]]]; reflexivity.
Defined.

Lemma sync_without_clear_duplicates_witness :
  let s :=
    Sample.service [Sample.lunch; Sample.meeting; Sample.holiday]
      [Sample.stale] [] in
  let s1 := (sync s).2 in
  let s2 := (sync s1).2 in
  ∃ first second,
    calendars s1 !! Sample.mirror_id = Some ([Sample.stale] ++ first)
    ∧ calendars s2 !! Sample.mirror_id
      = Some ([Sample.stale] ++ first ++ second)
    ∧ map without_id first
      = map placeholder
          (filter (λ e, busy e)
             (shown [Sample.lunch; Sample.meeting; Sample.holiday]))
    ∧ map without_id second = map without_id first.
Proof.
  intros s s1 s2.
  apply (sync_without_clear_duplicates Sample.mirror_id Reference.in_window
           Reference.by_start Reference.new_id Sample.now Sample.end_time
           s VNone s1 VNone s2).
  - discriminate.
  - vm_compute. reflexivity.
  - vm_compute. reflexivity.
  - reflexivity.
  - reflexivity.
Defined.

Lemma empty_window_cycle_witness :
  let s := Sample.service [] [Sample.later] [] in
  ∃ s',
    cycle s = (Return VNone, s')
    ∧ calendars s' = calendars s
    ∧ issued s s'
      = [(EventsList Sample.mirror_id (Some Sample.now) (Some Sample.end_time),
          true);
         (EventsList "primary" (Some Sample.now) (Some Sample.end_time), true)].
Proof.
  intros s.
  apply (empty_window_cycle Sample.mirror_id Reference.in_window
           Reference.by_start Reference.new_id Sample.now Sample.end_time
           s [] [Sample.later]).
  - constructor.
  - reflexivity.
  - reflexivity.
  - vm_compute. reflexivity.
  - vm_compute. reflexivity.
Defined.

Lemma cycle_completes_witness :
  let s :=
    Sample.service [Sample.lunch; Sample.meeting; Sample.holiday]
      [Sample.later; Sample.dentist] [] in
  ∃ s', cycle s = (Return VNone, s').
Proof.
  intros s.
  apply (cycle_completes Sample.mirror_id Reference.in_window
           Reference.by_start Reference.new_id
           Sample.now Sample.end_time s
           [Sample.lunch; Sample.meeting; Sample.holiday]
           [Sample.later; Sample.dentist]).
  - discriminate.
  - constructor.
  - reflexivity.
  - reflexivity.
  - change (NoDup (map ident (shown [Sample.later; Sample.dentist]))).
    replace (shown [Sample.later; Sample.dentist]) with [Sample.dentist]
      by (vm_compute; reflexivity).
    apply NoDup_singleton.
  - replace (shown [Sample.later; Sample.dentist]) with [Sample.dentist]
      by (vm_compute; reflexivity).
    constructor; [split|constructor].
    + apply list_elem_of_In. right. left. reflexivity.
    + by exists "d1".
  - replace (shown [Sample.lunch; Sample.meeting; Sample.holiday])
      with [Sample.lunch; Sample.meeting; Sample.holiday]
      by (vm_compute; reflexivity).
    repeat constructor; intros _; vm_compute; eauto.
Defined.
